(** * Wobble background estimation and Li&Ma significance

    A shallow embedding of the analysis code of
    [notebooks/DL1stereo_to_DL4/Step2_check_signal_from_dl2.ipynb]:
    the observation-time computation, the per-observation theta² assignment
    loop and the ON/OFF excess and significance calculation.

    Conventions.
    - The event table [event_data_mean] is a list of rows in index order.
    - Timestamps of the observation-time computation are exact rationals.
    - Counts are natural numbers; [alpha], the excess and the significance
      are real numbers.
    - Functions imported from other packages ([SkyCoord.separation],
      [calculate_off_coordinates], [Series.mean]) are parameters of the
      theta² section; [OffRegions] and [Significance] give the OFF-region
      generator and the significance as the specification describes them,
      over the real numbers. *)

From Stdlib Require Import QArith Reals Lia.
From Stdlib Require Lra Lqa RNsatz.
From stdpp Require Import gmap strings list fin_maps pretty sorting.

(** ** The event table *)

(** One row of [event_data_mean]: the index levels [(obs_id, event_id)], the
    DL2 columns the notebook reads, and every further column (the theta²
    columns are created by assignment) in [cols].  [F] is the type of a cell. *)
Record Row (F : Type) : Type := mkRow {
  obs_id : Z;
  event_id : Z;
  reco_ra : F;
  reco_dec : F;
  reco_energy : F;
  gammaness : F;
  combo_type : Z;
  pointing_ra : F;
  pointing_dec : F;
  timestamp : F;
  cols : gmap string F
}.

Arguments mkRow {F}.
Arguments obs_id {F}.
Arguments event_id {F}.
Arguments reco_ra {F}.
Arguments reco_dec {F}.
Arguments reco_energy {F}.
Arguments gammaness {F}.
Arguments combo_type {F}.
Arguments pointing_ra {F}.
Arguments pointing_dec {F}.
Arguments timestamp {F}.
Arguments cols {F}.

(** [np.unique(a)]: the sorted distinct values. *)
Definition np_unique (a : list Z) : list Z := merge_sort Z.le (remove_dups a).

(** ** Observation time *)

Module Livetime.

Local Open Scope Q_scope.

(** [np.diff(a)]: [out[i] = a[i+1] - a[i]]. *)
Fixpoint np_diff (a : list Q) : list Q :=
  match a with
  | x :: (y :: _) as rest => (y - x) :: np_diff rest
  | _ => []
  end.

(** [a.sum()]. *)
Definition np_sum (a : list Q) : Q := foldr Qplus 0 a.

(** [time_diffs = np.diff(event_data_mean["timestamp"])]
    [obs_time = time_diffs[time_diffs < 1].sum()] *)
Definition obs_time_of (timestamps : list Q) : Q :=
  let time_diffs := np_diff timestamps in
  np_sum (List.filter (fun d => QMicromega.Qlt_bool d 1) time_diffs).

Definition obs_time (event_data_mean : list (Row Q)) : Q :=
  obs_time_of (map timestamp event_data_mean).

(** The livetime as the specification words it: over the consecutive pairs
    [i, i+1] of the sequence, the sum of the differences
    [t(i+1) - t(i)] that are below the gap threshold. *)
Definition gap (ts : list Q) (i : nat) : Q := nth (S i) ts 0 - nth i ts 0.

Definition livetime_spec (threshold : Q) (ts : list Q) : Q :=
  foldr (fun i acc => (if QMicromega.Qlt_bool (gap ts i) threshold
                        then gap ts i else 0) + acc)
        0 (seq 0 (length ts - 1)).

(** The livetime of §4.5 for a sample of several observations: the rows of
    each [obs_id] sorted by timestamp, differenced, and the per-observation
    livetimes summed. *)
Definition rows_of (o : Z) (t : list (Row Q)) : list (Row Q) :=
  List.filter (fun r => Z.eqb (obs_id r) o) t.

Fixpoint insert_sorted (x : Q) (l : list Q) : list Q :=
  match l with
  | [] => [x]
  | y :: l' => if Qle_bool x y then x :: l else y :: insert_sorted x l'
  end.

Definition sort_timestamps (l : list Q) : list Q := foldr insert_sorted [] l.

Definition livetime_per_obs (threshold : Q) (t : list (Row Q)) : Q :=
  np_sum (map (fun o => livetime_spec threshold
                          (sort_timestamps (map timestamp (rows_of o t))))
              (np_unique (map obs_id t))).

(** A row with the given index and timestamp, the other columns empty. *)
Definition event (o e : Z) (time : Q) : Row Q :=
  mkRow o e 0 0 0 0 3%Z 0 0 time ∅.

(** Two observations in index order; the second one starts 0.2 s after the
    first ends and its second event carries an earlier timestamp. *)
Definition two_runs : list (Row Q) :=
  [event 1 1 10; event 1 2 (21 # 2); event 2 1 (107 # 10); event 2 2 3].

(** Index order of the table: [(obs_id, event_id)] lexicographic. *)
Definition index_le (r1 r2 : Row Q) : Prop :=
  (obs_id r1 < obs_id r2)%Z \/
  (obs_id r1 = obs_id r2 /\ (event_id r1 <= event_id r2)%Z).

Fixpoint index_sorted (t : list (Row Q)) : Prop :=
  match t with
  | r1 :: (r2 :: _) as rest => index_le r1 r2 /\ index_sorted rest
  | _ => True
  end.

(** The term the boundary between two consecutive blocks of rows adds. *)
Definition boundary (a b : list Q) : Q :=
  match a, b with
  | _ :: _, y :: _ =>
      let d := y - List.last a 0 in
      if QMicromega.Qlt_bool d 1 then d else 0
  | _, _ => 0
  end.

End Livetime.

(** ** Theta² assignment *)

Section Theta2.

Context {F : Type}.

(** A sky position, [(ra, dec)] in degrees. *)
Definition SkyCoord : Type := (F * F)%type.

(** [a.separation(b).to_value("deg")] of astropy. *)
Variable separation : SkyCoord -> SkyCoord -> F.
(** [x ** 2]. *)
Variable square : F -> F.
(** [Series.mean()]. *)
Variable mean : list F -> F.
(** [calculate_off_coordinates(pointing_ra, pointing_dec, on_coord_ra,
    on_coord_dec, n_regions)] of magicctapipe; the result is the dictionary's
    [items()], in iteration order. *)
Variable calculate_off_coordinates :
  F -> F -> F -> F -> nat -> list (nat * SkyCoord).

Variable on_coord : SkyCoord.
Variable n_regions_off : nat.

Definition with_cols (m : gmap string F) (r : Row F) : Row F :=
  mkRow (obs_id r) (event_id r) (reco_ra r) (reco_dec r) (reco_energy r)
        (gammaness r) (combo_type r) (pointing_ra r) (pointing_dec r)
        (timestamp r) m.

Definition set_col (col : string) (v : F) (r : Row F) : Row F :=
  with_cols (<[col := v]> (cols r)) r.

(** [event_data_mean.query(f"obs_id == {obs_id}")]. *)
Definition query_obs_id (o : Z) (t : list (Row F)) : list (Row F) :=
  filter (fun r => obs_id r = o) t.

(** Positional assignment of [values] to the rows of observation [o]. *)
Fixpoint loc_zip (o : Z) (col : string) (values : list F) (t : list (Row F))
  : option (list (Row F)) :=
  match t with
  | [] => match values with [] => Some [] | _ :: _ => None end
  | r :: t' =>
      if decide (obs_id r = o) then
        match values with
        | v :: vs => cons (set_col col v r) <$> loc_zip o col vs t'
        | [] => None
        end
      else cons r <$> loc_zip o col values t'
  end.

(** [t.loc[(o, slice(None)), col] = values].  [None] stands for the
    exception pandas raises: [KeyError] when no row has [obs_id = o],
    [ValueError] when [values] has not one value per selected row. *)
Definition loc_set (o : Z) (col : string) (values : list F) (t : list (Row F))
  : option (list (Row F)) :=
  if decide (o ∈ obs_id <$> t) then loc_zip o col values t else None.

Definition theta2_off_name (i_off : nat) : string :=
  "theta2_off" +:+ pretty i_off.

(** [theta.to_value("deg") ** 2] of the separation of [c] and an event. *)
Definition theta2 (c : SkyCoord) (event_coord : SkyCoord) : F :=
  square (separation c event_coord).

Definition coord_of (r : Row F) : SkyCoord := (reco_ra r, reco_dec r).

(** [for i_off, off_coord in off_coords.items(): ...] *)
Fixpoint off_loop (o : Z) (event_coords : list SkyCoord)
    (off_coords : list (nat * SkyCoord)) (t : list (Row F))
  : option (list (Row F)) :=
  match off_coords with
  | [] => Some t
  | (i_off, off_coord) :: rest =>
      let theta2_off := theta2 off_coord <$> event_coords in
      t' ← loc_set o (theta2_off_name i_off) theta2_off t;
      off_loop o event_coords rest t'
  end.

(** The OFF coordinates of observation [o]: from the mean pointing of its
    rows. *)
Definition off_coords_of (o : Z) (t : list (Row F)) : list (nat * SkyCoord) :=
  let df_events := query_obs_id o t in
  let pnt_ra_mean := mean (pointing_ra <$> df_events) in
  let pnt_dec_mean := mean (pointing_dec <$> df_events) in
  calculate_off_coordinates pnt_ra_mean pnt_dec_mean
    (fst on_coord) (snd on_coord) n_regions_off.

(** The body of [for obs_id in obs_ids: ...] (plotting left out). *)
Definition theta2_obs (o : Z) (event_data_mean : list (Row F))
  : option (list (Row F)) :=
  let df_events := query_obs_id o event_data_mean in
  let event_coords := coord_of <$> df_events in
  let theta2_on := theta2 on_coord <$> event_coords in
  t1 ← loc_set o "theta2_on" theta2_on event_data_mean;
  let off_coords := off_coords_of o event_data_mean in
  off_loop o event_coords off_coords t1.

Fixpoint obs_loop (obs_ids : list Z) (t : list (Row F))
  : option (list (Row F)) :=
  match obs_ids with
  | [] => Some t
  | o :: rest => t' ← theta2_obs o t; obs_loop rest t'
  end.

(** The whole cell: [obs_ids = np.unique(index.get_level_values("obs_id"))]
    and the loop over them. *)
Definition theta2_assignment (event_data_mean : list (Row F))
  : option (list (Row F)) :=
  obs_loop (np_unique (obs_id <$> event_data_mean)) event_data_mean.

(** *** Row-wise reading of the loop, used in the proofs *)

(** The columns of an event after the OFF loop. *)
Definition off_cols (event_coord : SkyCoord) (off_coords : list (nat * SkyCoord))
    (m : gmap string F) : gmap string F :=
  foldl (fun m ic => <[theta2_off_name (fst ic) := theta2 (snd ic) event_coord]> m)
        m off_coords.

Definition theta2_cols (off_coords : list (nat * SkyCoord)) (r : Row F)
  : gmap string F :=
  off_cols (coord_of r) off_coords
           (<["theta2_on" := theta2 on_coord (coord_of r)]> (cols r)).

(** What one pass of the loop body for [o] makes of row [r] of table [t]. *)
Definition theta2_row (o : Z) (t : list (Row F)) (r : Row F) : Row F :=
  if decide (obs_id r = o) then with_cols (theta2_cols (off_coords_of o t) r) r
  else r.

(** What the whole loop makes of row [r] of table [t]. *)
Definition theta2_row_all (t : list (Row F)) (r : Row F) : Row F :=
  with_cols (theta2_cols (off_coords_of (obs_id r) t) r) r.


(** A row update that leaves the index and the DL2 columns alone. *)
Definition keeps_base (h : Row F -> Row F) : Prop :=
  forall r, exists m, h r = with_cols m r.

End Theta2.

Arguments SkyCoord : clear implicits.

(** *** A small instance

    Integer cells, the Manhattan distance for the separation, and OFF
    positions numbered [1 .. n]; three events in two observations. *)
Module Toy.

Definition separation (a b : SkyCoord Z) : Z :=
  (Z.abs (fst a - fst b) + Z.abs (snd a - snd b))%Z.

Definition square (x : Z) : Z := (x * x)%Z.

Definition mean (l : list Z) : Z := (foldr Z.add 0 l / Z.of_nat (length l))%Z.

Definition numbered_off_coordinates (pointing_ra pointing_dec on_ra on_dec : Z)
    (n : nat) : list (nat * SkyCoord Z) :=
  (fun i => (i, (2 * pointing_ra - on_ra + Z.of_nat i, on_dec)%Z)) <$> seq 1 n.

Definition on_coord : SkyCoord Z := (83, 22)%Z.

Definition row (o e ra dec : Z) : Row Z :=
  mkRow o e ra dec 1%Z 1%Z 3%Z 84%Z 22%Z 0%Z ∅.

Definition table : list (Row Z) :=
  [row 1 1 83 22; row 1 2 85 21; row 2 1 80 25]%Z.

End Toy.

(** ** OFF regions *)

(** [calculate_off_coordinates] is imported from magicctapipe; this module
    writes it from §3 and §4.1 of the specification, with directions on the
    sky as unit vectors and the rotation about the pointing direction as
    pole. *)
Module OffRegions.

Local Open Scope R_scope.

(** A direction on the sky, as a vector of the unit sphere. *)
Record Vec : Type := mkVec { vx : R; vy : R; vz : R }.

Definition dot (u v : Vec) : R := vx u * vx v + vy u * vy v + vz u * vz v.

Definition cross (u v : Vec) : Vec :=
  mkVec (vy u * vz v - vz u * vy v)
        (vz u * vx v - vx u * vz v)
        (vx u * vy v - vy u * vx v).

Definition radians (degrees : R) : R := degrees * PI / 180.
Definition degrees (radians : R) : R := radians * 180 / PI.

(** The direction of the sky position [(ra, dec)], in degrees. *)
Definition direction (c : R * R) : Vec :=
  let ra := radians (fst c) in
  let dec := radians (snd c) in
  mkVec (cos dec * cos ra) (cos dec * sin ra) (sin dec).

(** Great-circle distance of two directions, in degrees. *)
Definition angular_separation (u v : Vec) : R := degrees (acos (dot u v)).

(** Modelled from the spec: the great-circle rotation of §4.1, of [v] about
    the axis [p] (a unit vector, the pole) by [theta] radians. *)
Definition rotate (p : Vec) (theta : R) (v : Vec) : Vec :=
  let c := cos theta in
  let s := sin theta in
  let k := dot p v * (1 - c) in
  mkVec (vx v * c + vx (cross p v) * s + vx p * k)
        (vy v * c + vy (cross p v) * s + vy p * k)
        (vz v * c + vz (cross p v) * s + vz p * k).

Definition Vec_eq_dec (u v : Vec) : {u = v} + {u <> v}.
Proof.
  destruct u as [a b c], v as [a' b' c'].
  destruct (Req_dec_T a a') as [-> | Ha]; [| right; congruence].
  destruct (Req_dec_T b b') as [-> | Hb]; [| right; congruence].
  destruct (Req_dec_T c c') as [-> | Hc]; [| right; congruence].
  now left.
Defined.

(** Modelled from the spec: the azimuthal step of §3 between neighbouring
    slots, 360/(N+1) degrees. *)
Definition rotation_step (n_regions : nat) : R := 360 / INR (n_regions + 1).

(** Modelled from the spec: slot [k] around the pointing direction, the ON
    region rotated by [k] steps; slot [0] is the ON region. *)
Definition slot (p on : Vec) (n_regions k : nat) : Vec :=
  rotate p (radians (INR k * rotation_step n_regions)) on.

Definition opposite (v : Vec) : Vec := mkVec (- vx v) (- vy v) (- vz v).

(** Modelled from the spec: [calculate_off_coordinates] is imported from
    magicctapipe and has no source in this repository.  §3 and §4.1: the
    [n_regions] positions are the ON region rotated around the pointing
    direction (as pole) by steps of 360/(n_regions + 1) degrees, the ON
    position itself skipped, numbered from 1; §7: an ON region that coincides
    with the pointing direction is an error ([None]). *)
Definition calculate_off_coordinates (pointing on_coord : R * R)
    (n_regions : nat) : option (list (nat * Vec)) :=
  let p := direction pointing in
  let on := direction on_coord in
  if Vec_eq_dec p on then None
  else Some (map (fun k => (k, slot p on n_regions k)) (seq 1 n_regions)).

End OffRegions.

(** ** Excess and significance *)

Module Significance.

Local Open Scope R_scope.

(** [alpha = 1 / n_regions_off] *)
Definition alpha (n_regions_off : nat) : R := 1 / INR n_regions_off.

(** [n_off_scaled = n_off_total * alpha] *)
Definition n_off_scaled (n_off_total : nat) (a : R) : R := INR n_off_total * a.

(** [n_excess = n_on - n_off_scaled] *)
Definition n_excess (n_on n_off_total : nat) (a : R) : R :=
  INR n_on - n_off_scaled n_off_total a.

(** Modelled from the spec: the [sign] of §4.4, as [np.sign]. *)
Definition sign (x : R) : R :=
  if Rlt_dec 0 x then 1 else if Rlt_dec x 0 then -1 else 0.

(** Modelled from the spec: a term [n * ln x] of the test statistic of
    §4.4, taken as [0] when the count [n] is [0]. *)
Definition count_log (n : nat) (x : R) : R :=
  match n with
  | O => 0
  | S _ => INR n * ln x
  end.

(** Modelled from the spec: [WStatCountsStatistic] is imported from gammapy
    and has no source in this repository.  The test statistic of §4.4,
      TS = 2 * [ n_on * ln(((1+alpha)/alpha) * (n_on/(n_on+n_off)))
               + n_off * ln((1+alpha) * (n_off/(n_on+n_off))) ],
    each term taken as [0] when its count is [0]. *)
Definition ts (n_on n_off : nat) (a : R) : R :=
  2 * (count_log n_on (((1 + a) / a) * (INR n_on / (INR n_on + INR n_off)))
       + count_log n_off ((1 + a) * (INR n_off / (INR n_on + INR n_off)))).

(** Modelled from the spec: [WStatCountsStatistic(n_on, n_off, alpha).sqrt_ts],
    the significance [sign(n_excess) * sqrt(TS)] of §4.4; undefined ([None],
    the not-a-number / no-data condition) when [n_on + n_off = 0]. *)
Definition sqrt_ts (n_on n_off : nat) (a : R) : option R :=
  if (n_on + n_off =? 0)%nat then None
  else Some (sign (n_excess n_on n_off a) * sqrt (ts n_on n_off a)).

(** [stat = WStatCountsStatistic(n_on, n_off_total, alpha=alpha)]
    [significance = stat.sqrt_ts] *)
Definition significance (n_on n_off_total n_regions_off : nat) : option R :=
  sqrt_ts n_on n_off_total (alpha n_regions_off).


(** Modelled from the spec: the formula of §4.4 for TS as it is written,
    over real arguments and without the zero-count convention. *)
Definition li_ma_ts (n_on n_off a : R) : R :=
  2 * (n_on * ln (((1 + a) / a) * (n_on / (n_on + n_off)))
       + n_off * ln ((1 + a) * (n_off / (n_on + n_off)))).


End Significance.

From Stdlib Require Import Qround.

(** ** Histogram bins *)

Module Binning.

Local Open Scope Q_scope.

(** [np.linspace(start, stop, num)] (endpoint included): [num] samples,
    [start + i * step] with [step = (stop - start) / (num - 1)], the last
    one set to [stop]. *)
Definition np_linspace (start stop : Q) (num : nat) : list Q :=
  match num with
  | O => []
  | S O => [start]
  | S div =>
      let step := (stop - start) / inject_Z (Z.of_nat div) in
      map (fun i => start + inject_Z (Z.of_nat i) * step) (seq 0 div)
      ++ [stop]
  end.

(** [bins[:-1]] and [bins[1:]]. *)
Definition lower_edges (bins : list Q) : list Q := removelast bins.
Definition upper_edges (bins : list Q) : list Q := tl bins.

(** [theta2_bins_center = (theta2_bins[:-1] + theta2_bins[1:]) / 2] *)
Definition bins_center (bins : list Q) : list Q :=
  zip_with (fun lo hi => (lo + hi) / 2) (lower_edges bins) (upper_edges bins).

(** [theta2_bins_width = [theta2_bins_center - theta2_bins[:-1],
                          theta2_bins[1:] - theta2_bins_center]] *)
Definition bins_width (bins : list Q) : list Q * list Q :=
  (zip_with Qminus (bins_center bins) (lower_edges bins),
   zip_with Qminus (upper_edges bins) (bins_center bins)).

End Binning.

(** ** Energy slices *)

Module EnergySlices.

Local Open Scope Q_scope.

(** [event_list.query(f"(reco_energy > {eng_lo}) & (reco_energy < {eng_hi})")] *)
Definition energy_slice (eng_lo eng_hi : Q) (event_list : list (Row Q))
  : list (Row Q) :=
  List.filter (fun r => QMicromega.Qlt_bool eng_lo (reco_energy r)
                        && QMicromega.Qlt_bool (reco_energy r) eng_hi)
              event_list.

(** [zip(energy_bins[:-1], energy_bins[1:])] *)
Definition bin_pairs (energy_bins : list Q) : list (Q * Q) :=
  zip (removelast energy_bins) (tl energy_bins).

(** The [df_events] of the successive passes of the loop over the bins. *)
Definition energy_slices (energy_bins : list Q) (event_list : list (Row Q))
  : list (list (Row Q)) :=
  map (fun p => energy_slice (fst p) (snd p) event_list)
      (bin_pairs energy_bins).

(** An energy strictly between the first and the last edge and on no edge. *)
Definition on_edge (energy_bins : list Q) (e : Q) : bool :=
  existsb (Qeq_bool e) energy_bins.

Definition strictly_inside (energy_bins : list Q) (e : Q) : bool :=
  QMicromega.Qlt_bool (hd 0 energy_bins) e
  && QMicromega.Qlt_bool e (List.last energy_bins 0)
  && negb (on_edge energy_bins e).

(** An event of the given reconstructed energy, for examples. *)
Definition event_of_energy (e : Q) : Row Q :=
  mkRow 1%Z 1%Z 0 0 e (9 # 10) 3%Z 0 0 0 ∅.

End EnergySlices.

(** ** Grid of the energy-bin panels *)

Module SubplotGrid.

(** [n_columns = 3] *)
Definition n_columns : nat := 3.

(** [n_rows = int(np.ceil(len(energy_bins[:-1]) / n_columns))] *)
Definition n_rows (n_bins : nat) : nat :=
  Z.to_nat (Qceiling (inject_Z (Z.of_nat n_bins)
                      / inject_Z (Z.of_nat n_columns))).

(** [locs = list(itertools.product(range(n_rows), range(n_columns)))] *)
Definition locs (n_bins : nat) : list (nat * nat) :=
  list_prod (seq 0 (n_rows n_bins)) (seq 0 n_columns).

End SubplotGrid.

(** ** ON regions of the two data stores
       ([Step5_check_flux_from_dl3.ipynb]) *)

Section OnRegion.

(** The type of a metadata value. *)
Context {V : Type}.

Inductive SkyRegion : Type :=
  | CircleSkyRegion (center : V * V) (radius : V)
  | PointSkyRegion (center : V * V).

(** [SkyCoord(u.Quantity(event_meta["RA_OBJ"], u.deg),
              u.Quantity(event_meta["DEC_OBJ"], u.deg), frame="icrs")];
    [None] is the [KeyError] of a missing key. *)
Definition target_position_of (event_meta : gmap string V) : option (V * V) :=
  ra ← event_meta !! "RA_OBJ";
  dec ← event_meta !! "DEC_OBJ";
  Some (ra, dec).

(** The ON region of the first data store, from the metadata of its first
    observation. *)
Definition on_region_of (event_meta aeff_meta : gmap string V)
  : option SkyRegion :=
  target_position ← target_position_of event_meta;
  match aeff_meta !! "RAD_MAX" with
  | Some on_region_radius =>
      Some (CircleSkyRegion target_position on_region_radius)
  | None => Some (PointSkyRegion target_position)
  end.

(** The ON region of the second data store ([if double:]); the cell runs
    after the one above, with [event_meta], [aeff_meta] and
    [target_position] of the first data store in scope, and has just read
    [event_meta_1] and [aeff_meta_1] from the second one. *)
Definition on_region_1_of (event_meta aeff_meta : gmap string V)
    (target_position : V * V) (event_meta_1 aeff_meta_1 : gmap string V)
  : option SkyRegion :=
  target_position_1 ← target_position_of event_meta;
  match aeff_meta !! "RAD_MAX" with
  | Some on_region_radius =>
      Some (CircleSkyRegion target_position on_region_radius)
  | None => Some (PointSkyRegion target_position_1)
  end.

End OnRegion.

Arguments SkyRegion : clear implicits.

(** ** Gamma selection and ON/OFF counts *)

Section Counting.

Context {F : Type}.

(** The comparison [x < y] of two cells. *)
Variable lt : F -> F -> bool.

(** A table with its column index: the rows, and the names of the columns
    it has beyond the DL2 ones.  A row without a value in a column of the
    index holds NaN there. *)
Record Frame : Type := mkFrame {
  frame_columns : gset string;
  frame_rows : list (Row F)
}.

(** The columns in which some row of [t] holds a value. *)
Definition columns_of (t : list (Row F)) : gset string :=
  ⋃ ((fun r => dom (cols r)) <$> t).

(** The theta² loop on a table with its column index: a [.loc] assignment
    to a column the table does not have adds it to the index, and writes it
    in the rows of the observation. *)
Definition theta2_assignment_frame
    (separation : SkyCoord F -> SkyCoord F -> F) (square : F -> F)
    (mean : list F -> F)
    (calculate_off_coordinates : F -> F -> F -> F -> nat -> list (nat * SkyCoord F))
    (on_coord : SkyCoord F) (n_regions_off : nat) (event_data_mean : Frame)
  : option Frame :=
  after ← theta2_assignment separation square mean calculate_off_coordinates
            on_coord n_regions_off (frame_rows event_data_mean);
  Some (mkFrame (frame_columns event_data_mean ∪ columns_of after) after).

(** [df.query(expr)]: the rows that satisfy [expr], under the columns of
    [df], also when no row is left. *)
Definition query (expr : Row F -> bool) (df : Frame) : Frame :=
  mkFrame (frame_columns df) (List.filter expr (frame_rows df)).

(** [event_list = event_data_mean.query(f"(combo_type == {combo_types}) &
                                          (gammaness > {cut_value_gh})")] *)
Definition gamma_selection (combo_types : list Z) (cut_value_gh : F)
    (event_data_mean : Frame) : Frame :=
  query (fun r => bool_decide (combo_type r ∈ combo_types)
                  && lt cut_value_gh (gammaness r))
        event_data_mean.

(** [len(event_list.query(f"{col} < {cut}"))].  [None] stands for the
    [UndefinedVariableError] that [query] raises when the table has no
    column [col]; a row that holds NaN in the column fails the comparison. *)
Definition count_below (col : string) (cut : F) (event_list : Frame)
  : option nat :=
  if decide (col ∈ frame_columns event_list) then
    Some (length (frame_rows
            (query (fun r => from_option (fun v => lt v cut) false
                                         (cols r !! col))
                   event_list)))
  else None.

(** [n_on = len(event_list.query(f"theta2_on < {cut_value_theta2}"))] *)
Definition n_on_of (cut_value_theta2 : F) (event_list : Frame) : option nat :=
  count_below "theta2_on" cut_value_theta2 event_list.

(** [n_off_total = 0]
    [for i_off in range(n_regions_off):]
    [    n_off = len(event_list.query(f"theta2_off{i_off+1} < {cut}"))]
    [    n_off_total += n_off]
    The first query that raises ends the loop. *)
Definition n_off_total_of (n_regions_off : nat) (cut_value_theta2 : F)
    (event_list : Frame) : option nat :=
  foldl (fun acc i_off =>
           n_off_total ← acc;
           n_off ← count_below (theta2_off_name (i_off + 1)) cut_value_theta2
                               event_list;
           Some (n_off_total + n_off))
        (Some 0) (seq 0 n_regions_off).

End Counting.

Arguments Frame : clear implicits.
Arguments mkFrame {F}.

(** * Proofs *)

(** ** Theta² assignment *)

Section Theta2Facts.

Context {F : Type}.
Variable separation : SkyCoord F -> SkyCoord F -> F.
Variable square : F -> F.
Variable mean : list F -> F.
Variable calculate_off_coordinates :
  F -> F -> F -> F -> nat -> list (nat * SkyCoord F).
Variable on_coord : SkyCoord F.
Variable n_regions_off : nat.

Local Abbreviation th2 := (theta2 separation square).
Local Abbreviation offs :=
  (off_coords_of mean calculate_off_coordinates on_coord n_regions_off).
Local Abbreviation body :=
  (theta2_obs separation square mean calculate_off_coordinates on_coord
              n_regions_off).
Local Abbreviation row1 :=
  (theta2_row separation square mean calculate_off_coordinates on_coord
              n_regions_off).
Local Abbreviation row_all :=
  (theta2_row_all separation square mean calculate_off_coordinates on_coord
                  n_regions_off).
Local Abbreviation tcols := (theta2_cols separation square on_coord).
Local Abbreviation ocols := (off_cols separation square).

Lemma with_cols_cols (r : Row F) : with_cols (cols r) r = r.
Proof. by destruct r. Qed.

Lemma with_cols_twice (m m' : gmap string F) (r : Row F) :
  with_cols m (with_cols m' r) = with_cols m r.
Proof. reflexivity. Qed.

Lemma keeps_base_obs_id (h : Row F -> Row F) (r : Row F) :
  keeps_base h -> obs_id (h r) = obs_id r.
Proof. intros Hh. destruct (Hh r) as [m ->]. reflexivity. Qed.

Lemma keeps_base_obs_ids (h : Row F -> Row F) (t : list (Row F)) :
  keeps_base h -> obs_id <$> (h <$> t) = obs_id <$> t.
Proof.
  intros Hh. rewrite <- list_fmap_compose. apply list_fmap_ext.
  intros i r _. simpl. by apply keeps_base_obs_id.
Qed.

Lemma keeps_base_query (h : Row F -> Row F) (o : Z) (t : list (Row F)) :
  keeps_base h -> query_obs_id o (h <$> t) = h <$> query_obs_id o t.
Proof.
  intros Hh. unfold query_obs_id. induction t as [| r t IH]; [done |].
  rewrite fmap_cons, !filter_cons, (keeps_base_obs_id h r Hh).
  case_decide; [rewrite fmap_cons |]; by rewrite IH.
Qed.

Lemma keeps_base_off_coords (h : Row F -> Row F) (o : Z) (t : list (Row F)) :
  keeps_base h -> offs o (h <$> t) = offs o t.
Proof.
  intros Hh. unfold off_coords_of. rewrite keeps_base_query by done.
  rewrite <- !list_fmap_compose.
  f_equal; f_equal; apply list_fmap_ext; intros i r _; simpl;
    by destruct (Hh r) as [m ->].
Qed.

Lemma keeps_base_off_coords_row (h : Row F -> Row F) (o : Z) (t : list (Row F)) :
  keeps_base h -> row1 o (h <$> t) = row1 o t.
Proof.
  intros Hh. unfold theta2_row. by rewrite keeps_base_off_coords.
Qed.

(** Positional assignment of per-row values to the rows of [o]. *)
Lemma loc_zip_fmap (o : Z) (col : string) (v : Row F -> F)
    (h : Row F -> Row F) (t : list (Row F)) :
  keeps_base h ->
  loc_zip o col (v <$> query_obs_id o t) (h <$> t)
  = Some ((fun r => if decide (obs_id r = o) then set_col col (v r) (h r)
                    else h r) <$> t).
Proof.
  intros Hh. unfold query_obs_id. induction t as [| r t IH]; [done |].
  rewrite !fmap_cons, filter_cons. cbn [loc_zip].
  rewrite (keeps_base_obs_id h r Hh).
  destruct (decide (obs_id r = o)) as [Ho | Ho].
  - rewrite fmap_cons, IH. done.
  - rewrite IH. done.
Qed.

Lemma loc_set_fmap (o : Z) (col : string) (v : Row F -> F)
    (h : Row F -> Row F) (t : list (Row F)) :
  keeps_base h -> o ∈ obs_id <$> t ->
  loc_set o col (v <$> query_obs_id o t) (h <$> t)
  = Some ((fun r => if decide (obs_id r = o) then set_col col (v r) (h r)
                    else h r) <$> t).
Proof.
  intros Hh Ho. unfold loc_set. rewrite keeps_base_obs_ids by done.
  rewrite decide_True by done. by apply loc_zip_fmap.
Qed.

Lemma off_loop_fmap (o : Z) (off_coords : list (nat * SkyCoord F))
    (g : Row F -> gmap string F) (h : Row F -> Row F) (t : list (Row F)) :
  o ∈ obs_id <$> t ->
  (forall r, h r = if decide (obs_id r = o) then with_cols (g r) r else r) ->
  off_loop separation square o (coord_of <$> query_obs_id o t) off_coords
    (h <$> t)
  = Some ((fun r => if decide (obs_id r = o)
                    then with_cols (ocols (coord_of r) off_coords (g r)) r
                    else r) <$> t).
Proof.
  intros Ho. revert g h.
  induction off_coords as [| [i_off off_coord] rest IH]; intros g h Hh.
  - cbn [off_loop off_cols foldl]. f_equal. apply list_fmap_ext.
    intros i r _. apply Hh.
  - cbn [off_loop].
    assert (Hvals : th2 off_coord <$> (coord_of <$> query_obs_id o t)
                    = (th2 off_coord ∘ coord_of) <$> query_obs_id o t)
      by (by rewrite <- list_fmap_compose).
    rewrite Hvals, loc_set_fmap; [| | done].
    + cbn [mbind option_bind].
      apply (IH (fun r =>
        <[theta2_off_name i_off := th2 off_coord (coord_of r)]> (g r))).
      intros r. rewrite Hh. by case_decide.
    + intros r. rewrite Hh. case_decide; [by eexists |]. exists (cols r).
      by rewrite with_cols_cols.
Qed.

(** One pass of the loop body is the row-wise update [theta2_row]. *)
Lemma theta2_obs_rows (o : Z) (t : list (Row F)) :
  o ∈ obs_id <$> t -> body o t = Some (row1 o t <$> t).
Proof.
  intros Ho. unfold theta2_obs.
  assert (Hvals : th2 on_coord <$> (coord_of <$> query_obs_id o t)
                  = (th2 on_coord ∘ coord_of) <$> query_obs_id o t)
    by (by rewrite <- list_fmap_compose).
  assert (Hid : keeps_base (@Datatypes.id (Row F))).
  { intros r. exists (cols r). by rewrite with_cols_cols. }
  pose proof (loc_set_fmap o "theta2_on" (th2 on_coord ∘ coord_of)
                Datatypes.id t Hid Ho) as Hset.
  rewrite list_fmap_id in Hset. rewrite Hvals, Hset.
  cbn [mbind option_bind].
  apply (off_loop_fmap o _ (fun r =>
     <["theta2_on" := th2 on_coord (coord_of r)]> (cols r))); [done |].
  intros r. by case_decide.
Qed.

Lemma np_unique_NoDup (a : list Z) : NoDup (np_unique a).
Proof.
  unfold np_unique. rewrite merge_sort_Permutation. apply NoDup_remove_dups.
Qed.

Lemma elem_of_np_unique (a : list Z) (x : Z) : x ∈ np_unique a <-> x ∈ a.
Proof.
  unfold np_unique. rewrite merge_sort_Permutation. apply elem_of_remove_dups.
Qed.

Lemma row_all_keeps_base (t : list (Row F)) (done : list Z) :
  keeps_base (fun r => if decide (obs_id r ∈ done) then row_all t r else r).
Proof.
  intros r. case_decide; [by eexists |]. exists (cols r).
  by rewrite with_cols_cols.
Qed.

(** The loop over the observations: after the observations [done], the rows
    of these observations carry their theta² columns, the others are as
    they were. *)
Lemma obs_loop_rows (t : list (Row F)) (obs_ids done : list Z) :
  NoDup obs_ids ->
  (forall o, o ∈ obs_ids -> o ∉ done) ->
  (forall o, o ∈ obs_ids -> o ∈ obs_id <$> t) ->
  obs_loop separation square mean calculate_off_coordinates on_coord
    n_regions_off obs_ids
    ((fun r => if decide (obs_id r ∈ done) then row_all t r else r) <$> t)
  = Some ((fun r => if decide (obs_id r ∈ done ++ obs_ids) then row_all t r
                    else r) <$> t).
Proof.
  revert done. induction obs_ids as [| o rest IH]; intros done Hnd Hfresh Hin.
  - cbn [obs_loop]. by rewrite app_nil_r.
  - cbn [obs_loop].
    pose proof (row_all_keeps_base t done) as Hkb.
    rewrite theta2_obs_rows
      by (rewrite keeps_base_obs_ids by done; apply Hin; left).
    cbn [mbind option_bind].
    rewrite keeps_base_off_coords_row by done.
    rewrite <- list_fmap_compose.
    apply NoDup_cons in Hnd as [Ho Hnd].
    assert (Hstep :
      row1 o t ∘ (fun r => if decide (obs_id r ∈ done) then row_all t r else r)
        <$> t
      = (fun r => if decide (obs_id r ∈ done ++ [o]) then row_all t r else r)
        <$> t).
    { apply list_fmap_ext. intros i r _. cbn [compose].
      unfold theta2_row. rewrite (keeps_base_obs_id _ r Hkb).
      destruct (decide (obs_id r = o)) as [<- | Hne].
      - rewrite (decide_False (P := obs_id r ∈ done))
          by (apply Hfresh; left).
        rewrite decide_True
          by (apply elem_of_app; right; apply list_elem_of_here).
        reflexivity.
      - destruct (decide (obs_id r ∈ done)) as [Hd | Hd].
        + rewrite decide_True by (apply elem_of_app; by left). reflexivity.
        + rewrite decide_False; [reflexivity |].
          rewrite elem_of_app, list_elem_of_singleton. tauto. }
    rewrite Hstep, (IH (done ++ [o])); [| done | |].
    + by rewrite <- app_assoc.
    + intros o' Ho'. rewrite elem_of_app, list_elem_of_singleton.
      intros [Hd | ->]; [| done].
      apply (Hfresh o'); [by right | done].
    + intros o' Ho'. apply Hin. by right.
Qed.

(** The whole loop is the row-wise update [theta2_row_all]; in particular it
    raises no error. *)
Lemma theta2_assignment_rows (t : list (Row F)) :
  theta2_assignment separation square mean calculate_off_coordinates on_coord
    n_regions_off t
  = Some (row_all t <$> t).
Proof.
  unfold theta2_assignment.
  pose proof (obs_loop_rows t (np_unique (obs_id <$> t)) []
                (np_unique_NoDup _)) as Hloop.
  assert (Hnil : (fun r : Row F => if decide (obs_id r ∈ @nil Z)
                                   then row_all t r else r) <$> t = t).
  { rewrite <- (list_fmap_id t) at 2. apply list_fmap_ext.
    intros i r _. rewrite decide_False; [done | apply not_elem_of_nil]. }
  rewrite Hnil in Hloop. rewrite Hloop.
  - f_equal. apply list_fmap_ext. intros i r Hr. rewrite decide_True; [done |].
    rewrite app_nil_l. apply elem_of_np_unique, list_elem_of_fmap.
    exists r. split; [done |]. by eapply list_elem_of_lookup_2.
  - intros o _. apply not_elem_of_nil.
  - intros o Ho. by apply elem_of_np_unique.
Qed.

Lemma off_cols_snoc (e : SkyCoord F) (oc : list (nat * SkyCoord F))
    (ic : nat * SkyCoord F) (m : gmap string F) :
  ocols e (oc ++ [ic]) m
  = <[theta2_off_name (fst ic) := th2 (snd ic) e]> (ocols e oc m).
Proof. unfold off_cols. by rewrite foldl_app. Qed.

(** A column after the writes of one event either has a value that does
    not depend on the columns before, or is the column before. *)
Lemma theta2_writes_lookup (e : SkyCoord F) (oc : list (nat * SkyCoord F))
    (v : F) (k : string) :
  (exists x, forall m : gmap string F,
      ocols e oc (<["theta2_on" := v]> m) !! k = Some x) \/
  (forall m : gmap string F,
      ocols e oc (<["theta2_on" := v]> m) !! k = m !! k).
Proof.
  induction oc as [| ic oc IH] using rev_ind.
  - cbn [off_cols foldl]. destruct (decide (k = "theta2_on")) as [-> | Hk].
    + left. exists v. intros m. apply lookup_insert_eq.
    + right. intros m. by apply lookup_insert_ne.
  - destruct (decide (k = theta2_off_name (fst ic))) as [-> | Hk].
    + left. eexists. intros m. rewrite off_cols_snoc. apply lookup_insert_eq.
    + destruct IH as [[x Hx] | Hsame].
      * left. exists x. intros m. rewrite off_cols_snoc.
        rewrite lookup_insert_ne by done. apply Hx.
      * right. intros m. rewrite off_cols_snoc.
        rewrite lookup_insert_ne by done. apply Hsame.
Qed.

Lemma theta2_writes_twice (e : SkyCoord F) (oc : list (nat * SkyCoord F))
    (v : F) (m : gmap string F) :
  ocols e oc (<["theta2_on" := v]> (ocols e oc (<["theta2_on" := v]> m)))
  = ocols e oc (<["theta2_on" := v]> m).
Proof.
  apply map_eq. intros k.
  destruct (theta2_writes_lookup e oc v k) as [[x Hx] | Hsame].
  - by rewrite !Hx.
  - by rewrite Hsame.
Qed.

Lemma off_cols_lookup_other (e : SkyCoord F) (oc : list (nat * SkyCoord F))
    (m : gmap string F) (k : string) :
  Forall (fun ic => k <> theta2_off_name (fst ic)) oc ->
  ocols e oc m !! k = m !! k.
Proof.
  revert m. induction oc as [| ic oc IH]; intros m Hk; [done |].
  apply Forall_cons in Hk as [Hic Hk]. cbn [off_cols foldl].
  change (foldl _ ?a oc) with (ocols e oc a).
  rewrite IH by done. by apply lookup_insert_ne.
Qed.

Lemma row_all_twice (t : list (Row F)) (r : Row F) :
  row_all (row_all t <$> t) (row_all t r) = row_all t r.
Proof.
  assert (Hkb : keeps_base (row_all t)) by (intros r'; by eexists).
  unfold theta2_row_all at 1. rewrite keeps_base_off_coords by done.
  unfold theta2_row_all. cbn [obs_id]. unfold theta2_cols.
  cbn [coord_of reco_ra reco_dec cols with_cols].
  rewrite with_cols_twice. f_equal. apply theta2_writes_twice.
Qed.

(** C8: the theta² assignment returns a table, and applied to that table it
    returns the very same table: every [theta2_on] and [theta2_off] column,
    and everything else, is as after the first application. *)
Theorem theta2_assignment_idempotent (event_data_mean : list (Row F)) :
  exists once : list (Row F),
    theta2_assignment separation square mean calculate_off_coordinates
      on_coord n_regions_off event_data_mean = Some once /\
    theta2_assignment separation square mean calculate_off_coordinates
      on_coord n_regions_off once = Some once.
Proof.
  exists (row_all event_data_mean <$> event_data_mean).
  split; [apply theta2_assignment_rows |].
  rewrite theta2_assignment_rows. f_equal.
  rewrite <- list_fmap_compose. apply list_fmap_ext.
  intros i r _. cbn [compose]. apply row_all_twice.
Qed.

Lemma theta2_on_not_off (oc : list (nat * SkyCoord F)) :
  Forall (fun ic => "theta2_on" <> theta2_off_name (fst ic)) oc.
Proof. apply Forall_forall. intros ic _. discriminate. Qed.



End Theta2Facts.


(** ** OFF regions *)

Module OffRegionsFacts.
Import OffRegions.
Import Lra RNsatz.
Local Open Scope R_scope.

Lemma direction_unit (c : R * R) : dot (direction c) (direction c) = 1.
Proof.
  unfold dot, direction. cbn [vx vy vz].
  pose proof (sin2_cos2 (radians (fst c))) as Hra.
  pose proof (sin2_cos2 (radians (snd c))) as Hdec.
  unfold Rsqr in *. nsatz.
Qed.

Lemma dot_rotate (p v : Vec) (theta : R) :
  dot p p = 1 -> dot p (rotate p theta v) = dot p v.
Proof.
  cbv [dot rotate cross vx vy vz]. intros Hp. nsatz.
Qed.

Lemma rotate_rotate (p v : Vec) (a b : R) :
  dot p p = 1 -> rotate p b (rotate p a v) = rotate p (a + b) v.
Proof.
  intros Hp. unfold rotate at 1 3. rewrite cos_plus, sin_plus.
  cbv [dot rotate cross vx vy vz] in *.
  f_equal; nsatz.
Qed.

Lemma rotate_0 (p v : Vec) : rotate p 0 v = v.
Proof.
  unfold rotate. rewrite cos_0, sin_0. destruct v as [a b c]. cbn [vx vy vz].
  f_equal; ring.
Qed.

Lemma rotate_2PI (p v : Vec) : rotate p (2 * PI) v = v.
Proof.
  unfold rotate. rewrite cos_2PI, sin_2PI. destruct v as [a b c].
  cbn [vx vy vz]. f_equal; ring.
Qed.

Lemma slot_0 (p on : Vec) (n : nat) : slot p on n 0 = on.
Proof.
  unfold slot, radians. simpl INR.
  replace (0 * rotation_step n * PI / 180) with 0 by (unfold Rdiv; ring).
  apply rotate_0.
Qed.

Lemma rotation_step_pos (n : nat) : 0 < INR (n + 1).
Proof. apply lt_0_INR. lia. Qed.

Lemma slot_full_turn (p on : Vec) (n : nat) : slot p on n (n + 1) = on.
Proof.
  unfold slot, radians, rotation_step.
  pose proof (rotation_step_pos n) as Hn.
  replace (INR (n + 1) * (360 / INR (n + 1)) * PI / 180) with (2 * PI)
    by (field; lra).
  apply rotate_2PI.
Qed.

Lemma slot_next (p on : Vec) (n k : nat) :
  dot p p = 1 ->
  rotate p (radians (rotation_step n)) (slot p on n k) = slot p on n (S k).
Proof.
  intros Hp. unfold slot. rewrite rotate_rotate by assumption. f_equal.
  rewrite S_INR. unfold radians, Rdiv. ring.
Qed.

(** Strictly inside a full turn the cosine stays below 1. *)
Lemma cos_lt_1_inside (theta : R) : 0 < theta < 2 * PI -> cos theta < 1.
Proof.
  intros [Hlo Hhi]. replace theta with (2 * (theta / 2)) by field.
  rewrite cos_2a_sin.
  assert (Hs : 0 < sin (theta / 2)) by (apply sin_gt_0; lra).
  assert (0 < sin (theta / 2) * sin (theta / 2))
    by (apply Rmult_lt_0_compat; assumption).
  lra.
Qed.

Lemma slot_angle_inside (n k : nat) :
  (1 <= k <= n)%nat -> 0 < radians (INR k * rotation_step n) < 2 * PI.
Proof.
  intros [Hk1 Hkn]. unfold radians, rotation_step.
  pose proof (rotation_step_pos n) as Hn. pose proof PI_RGT_0 as Hpi.
  assert (Hk : 0 < INR k) by (apply lt_0_INR; lia).
  assert (Hlt : INR k < INR (n + 1)) by (apply lt_INR; lia).
  replace (INR k * (360 / INR (n + 1)) * PI / 180)
    with (2 * PI * (INR k / INR (n + 1))) by (field; lra).
  assert (Hq : 0 < INR k / INR (n + 1) < 1).
  { split; [apply Rdiv_lt_0_compat; assumption |].
    apply (Rmult_lt_reg_r (INR (n + 1))); [assumption |].
    unfold Rdiv. rewrite Rmult_assoc, Rinv_l by lra. lra. }
  split; [apply Rmult_lt_0_compat; lra |].
  rewrite <- (Rmult_1_r (2 * PI)) at 2. apply Rmult_lt_compat_l; lra.
Qed.

Lemma sum_squares_zero (a b c : R) : a * a + b * b + c * c = 0 -> a = 0 /\ b = 0 /\ c = 0.
Proof. intros H. repeat split; nra. Qed.

(** A rotation by an angle with cosine below 1 moves every direction but
    the axis and its opposite. *)
Lemma rotate_moves (p v : Vec) (theta : R) :
  dot p p = 1 -> dot v v = 1 -> cos theta < 1 ->
  rotate p theta v = v -> v = p \/ v = opposite p.
Proof.
  intros Hp Hv Hc Hfix.
  assert (Hd : (1 - cos theta) * (dot p v * dot p v - 1) = 0).
  { assert (Hvv : dot v (rotate p theta v) = dot v v) by (now rewrite Hfix).
    rewrite Hv in Hvv. cbv [dot rotate cross vx vy vz] in *. nsatz. }
  apply Rmult_integral in Hd as [Hd | Hd]; [lra |].
  assert (Hpm : dot p v = 1 \/ dot p v = -1).
  { assert ((dot p v - 1) * (dot p v + 1) = 0) by lra.
    destruct (Rmult_integral _ _ H); [left | right]; lra. }
  destruct p as [px py pz], v as [a b c]. unfold opposite.
  cbv [dot vx vy vz] in *.
  destruct Hpm as [H1 | H1]; [left | right].
  - destruct (sum_squares_zero (a - px) (b - py) (c - pz)) as (Ha & Hb & Hc');
      [nra |]. f_equal; lra.
  - destruct (sum_squares_zero (a + px) (b + py) (c + pz)) as (Ha & Hb & Hc');
      [nra |]. f_equal; lra.
Qed.

(** C4: for [N >= 1] and an ON direction that is not the pointing
    direction, the generator returns exactly [N] positions, numbered
    [1 .. N]; position [k] is the ON direction turned about the pointing
    direction by [k] steps of [360/(N+1)] degrees, so it has the angular
    separation from the pointing direction that the ON region has; one
    more step from a slot gives the next slot, slot [0] and slot [N+1] are
    the ON region itself, which is not among the positions returned
    (unless the ON direction is opposite to the pointing direction, where
    turning does not move it). *)
Theorem off_regions_equally_spaced (pointing on_coord : R * R)
    (n_regions : nat) :
  (1 <= n_regions)%nat ->
  direction on_coord <> direction pointing ->
  let p := direction pointing in
  let on := direction on_coord in
  exists off_coords : list (nat * Vec),
    calculate_off_coordinates pointing on_coord n_regions = Some off_coords /\
    length off_coords = n_regions /\
    map fst off_coords = seq 1 n_regions /\
    rotation_step n_regions = 360 / (INR n_regions + 1) /\
    (forall (k : nat) (w : Vec), In (k, w) off_coords ->
       (1 <= k <= n_regions)%nat /\
       w = slot p on n_regions k /\
       angular_separation p w = angular_separation p on) /\
    slot p on n_regions 0 = on /\
    slot p on n_regions (n_regions + 1) = on /\
    (forall k : nat,
       rotate p (radians (rotation_step n_regions)) (slot p on n_regions k)
       = slot p on n_regions (S k)) /\
    (on <> opposite p ->
     forall (k : nat) (w : Vec), In (k, w) off_coords -> w <> on).
Proof.
  intros HN Hne p on.
  pose proof (direction_unit pointing) as Hp. fold p in Hp.
  pose proof (direction_unit on_coord) as Hon. fold on in Hon.
  assert (Hin : forall (k : nat) (w : Vec),
            In (k, w) (map (fun k => (k, slot p on n_regions k))
                           (seq 1 n_regions)) ->
            (1 <= k <= n_regions)%nat /\ w = slot p on n_regions k).
  { intros k w Hkw. apply in_map_iff in Hkw as (k' & Heq & Hk').
    injection Heq as <- <-. apply in_seq in Hk'. split; [lia | reflexivity]. }
  exists (map (fun k => (k, slot p on n_regions k)) (seq 1 n_regions)).
  split; [| split; [| split; [| split; [| split; [| split; [| split; [| split]]]]]]].
  - unfold calculate_off_coordinates. fold p on.
    destruct (Vec_eq_dec p on) as [Heq | _]; [| reflexivity].
    exfalso. apply Hne. unfold p, on in Heq. congruence.
  - now rewrite length_map, length_seq.
  - rewrite map_map. cbn [fst]. apply map_id.
  - unfold rotation_step. now rewrite plus_INR.
  - intros k w Hkw. destruct (Hin k w Hkw) as [Hk ->].
    split; [exact Hk |]. split; [reflexivity |].
    unfold angular_separation, slot. now rewrite dot_rotate.
  - apply slot_0.
  - apply slot_full_turn.
  - intros k. now apply slot_next.
  - intros Hopp k w Hkw Hw. destruct (Hin k w Hkw) as [Hk ->].
    unfold slot in Hw.
    apply rotate_moves in Hw as [Hw | Hw]; try assumption.
    + apply Hne. exact Hw.
    + apply Hopp. exact Hw.
    + apply cos_lt_1_inside, slot_angle_inside. exact Hk.
Qed.

Lemma off_regions_equally_spaced_witness :
  exists off_coords : list (nat * Vec),
    calculate_off_coordinates (0, 0) (0, 90) 3 = Some off_coords /\
    length off_coords = 3%nat.
Proof.
  assert (H0 : radians 0 = 0) by (unfold radians, Rdiv; ring).
  assert (H90 : radians 90 = PI / 2) by (unfold radians; field).
  destruct (off_regions_equally_spaced (0, 0) (0, 90) 3)
    as (off_coords & Hrun & Hlen & _).
  - lia.
  - unfold direction. cbn [fst snd]. rewrite H0, H90.
    rewrite sin_0, cos_0, sin_PI2, cos_PI2. intros Heq.
    injection Heq as _ _ Hz. lra.
  - exists off_coords. split; [exact Hrun | exact Hlen].
Defined.
End OffRegionsFacts.

(** ** Observation time *)

Module LivetimeFacts.
Import Livetime.
Import Lqa.
Local Open Scope Q_scope.

(** One step of the masked sum. *)
Lemma obs_time_of_cons2 (x y : Q) (rest : list Q) :
  obs_time_of (x :: y :: rest)
  = if QMicromega.Qlt_bool (y - x) 1
    then (y - x) + obs_time_of (y :: rest)
    else obs_time_of (y :: rest).
Proof.
  unfold obs_time_of. cbn [np_diff List.filter].
  destruct (QMicromega.Qlt_bool (y - x) 1); reflexivity.
Qed.

Lemma livetime_spec_cons2 (th x y : Q) (rest : list Q) :
  livetime_spec th (x :: y :: rest)
  = (if QMicromega.Qlt_bool (y - x) th then y - x else 0)
    + livetime_spec th (y :: rest).
Proof.
  unfold livetime_spec. cbn [length Nat.sub].
  rewrite Nat.sub_0_r. cbn [seq foldr]. f_equal.
  rewrite <- seq_shift.
  generalize (seq 0 (length rest)) as idx.
  induction idx as [| i idx IH]; [reflexivity |].
  cbn [map foldr]. rewrite IH. reflexivity.
Qed.

Lemma obs_time_of_spec (ts : list Q) : obs_time_of ts == livetime_spec 1 ts.
Proof.
  induction ts as [| x [| y rest] IH]; [reflexivity | reflexivity |].
  rewrite obs_time_of_cons2, livetime_spec_cons2, <- IH.
  destruct (QMicromega.Qlt_bool (y - x) 1); ring.
Qed.

(** The masked sum over two consecutive blocks: the sums of the blocks and
    the term of the pair of timestamps at the junction. *)
Lemma obs_time_of_app (a b : list Q) :
  obs_time_of (a ++ b) == obs_time_of a + boundary a b + obs_time_of b.
Proof.
  induction a as [| x [| x' a'] IH].
  - cbn [app boundary]. unfold obs_time_of at 2. cbn. ring.
  - destruct b as [| y b'].
    + cbn. reflexivity.
    + change ([x] ++ y :: b') with (x :: y :: b').
      rewrite obs_time_of_cons2. cbn [boundary List.last].
      unfold obs_time_of at 3. cbn [np_diff List.filter np_sum foldr].
      destruct (QMicromega.Qlt_bool (y - x) 1); ring.
  - change ((x :: x' :: a') ++ b) with (x :: x' :: (a' ++ b)).
    rewrite !obs_time_of_cons2.
    change (x' :: a' ++ b) with ((x' :: a') ++ b).
    assert (Hb : boundary (x :: x' :: a') b = boundary (x' :: a') b)
      by (destruct b; reflexivity).
    rewrite Hb.
    destruct (QMicromega.Qlt_bool (x' - x) 1); rewrite IH; ring.
Qed.

Lemma obs_time_of_pair (a b : list Q) (x y : Q) :
  obs_time_of (a ++ x :: y :: b)
  == obs_time_of (a ++ [x])
     + (if QMicromega.Qlt_bool (y - x) 1 then y - x else 0)
     + obs_time_of (y :: b).
Proof.
  change (a ++ x :: y :: b) with (a ++ [x] ++ y :: b).
  rewrite app_assoc, obs_time_of_app.
  assert (Hb : boundary (a ++ [x]) (y :: b)
               = if QMicromega.Qlt_bool (y - x) 1 then y - x else 0).
  { unfold boundary. destruct (a ++ [x]) as [| z l] eqn:E.
    - destruct a; discriminate.
    - rewrite <- E, last_last. reflexivity. }
  rewrite Hb. reflexivity.
Qed.

Lemma Qlt_bool_true (d : Q) : d < 1 -> QMicromega.Qlt_bool d 1 = true.
Proof. intros H. now apply QMicromega.Qlt_bool_iff. Qed.

Lemma Qlt_bool_false (d : Q) : 1 <= d -> QMicromega.Qlt_bool d 1 = false.
Proof.
  intros H. destruct (QMicromega.Qlt_bool d 1) eqn:E; [| reflexivity].
  apply QMicromega.Qlt_bool_iff in E. lra.
Qed.

(** C3: the observation time is the sum of exactly the consecutive
    timestamp differences below the threshold of 1 s, for every sequence of
    timestamps and every table (so also for one sorted by timestamp within
    each [obs_id]); for [0, 0.5, 1.0, 50.0, 50.3] it is 1.3 s, the gap from
    1.0 to 50.0 left out. *)
Theorem obs_time_sums_short_gaps :
  (forall timestamps : list Q,
     obs_time_of timestamps == livetime_spec 1 timestamps) /\
  (forall event_data_mean : list (Row Q),
     obs_time event_data_mean
     == livetime_spec 1 (map timestamp event_data_mean)) /\
  np_diff [0; 1 # 2; 1; 50; 503 # 10] = [1 # 2; 1 # 2; 49; 3 # 10] /\
  obs_time_of [0; 1 # 2; 1; 50; 503 # 10] == 13 # 10.
Proof.
  split; [exact obs_time_of_spec |].
  split; [intros t; apply obs_time_of_spec |].
  split; [reflexivity | reflexivity].
Qed.

(** C10: the observation time is taken over the rows of the whole table in
    their index order.  Between two consecutive blocks of rows (two
    observations) the difference at the junction is counted like any other;
    a difference below 1 s is added whatever the [obs_id]s of its two rows,
    a negative one included, and one of 1 s or more is left out.  On
    [two_runs], which is in index order, the result is -7 s, while the
    per-observation livetime over sorted timestamps is 0.5 s. *)
Theorem obs_time_whole_table :
  (forall t1 t2 : list (Row Q),
     obs_time (t1 ++ t2)
     == obs_time t1 + boundary (map timestamp t1) (map timestamp t2)
        + obs_time t2) /\
  (forall (t1 t2 : list (Row Q)) (r1 r2 : Row Q),
     timestamp r2 - timestamp r1 < 1 ->
     obs_time (t1 ++ r1 :: r2 :: t2)
     == obs_time (t1 ++ [r1]) + (timestamp r2 - timestamp r1)
        + obs_time (r2 :: t2)) /\
  (forall (t1 t2 : list (Row Q)) (r1 r2 : Row Q),
     timestamp r2 < timestamp r1 ->
     obs_time (t1 ++ r1 :: r2 :: t2)
     == obs_time (t1 ++ [r1]) + (timestamp r2 - timestamp r1)
        + obs_time (r2 :: t2)) /\
  (forall (t1 t2 : list (Row Q)) (r1 r2 : Row Q),
     1 <= timestamp r2 - timestamp r1 ->
     obs_time (t1 ++ r1 :: r2 :: t2)
     == obs_time (t1 ++ [r1]) + obs_time (r2 :: t2)) /\
  index_sorted two_runs /\
  obs_time two_runs == - 7 /\
  livetime_per_obs 1 two_runs == 1 # 2.
Proof.
  assert (Hpair : forall (t1 t2 : list (Row Q)) (r1 r2 : Row Q),
     obs_time (t1 ++ r1 :: r2 :: t2)
     == obs_time (t1 ++ [r1])
        + (if QMicromega.Qlt_bool (timestamp r2 - timestamp r1) 1
           then timestamp r2 - timestamp r1 else 0)
        + obs_time (r2 :: t2)).
  { intros t1 t2 r1 r2. unfold obs_time.
    rewrite !map_app. cbn [map]. apply obs_time_of_pair. }
  split; [| split; [| split; [| split; [| split; [| split]]]]].
  - intros t1 t2. unfold obs_time. rewrite map_app. apply obs_time_of_app.
  - intros t1 t2 r1 r2 Hd. rewrite Hpair, Qlt_bool_true by assumption.
    reflexivity.
  - intros t1 t2 r1 r2 Hd. rewrite Hpair, Qlt_bool_true by lra.
    reflexivity.
  - intros t1 t2 r1 r2 Hd. rewrite Hpair, Qlt_bool_false by assumption.
    ring.
  - cbn. unfold index_le. cbn. lia.
  - reflexivity.
  - reflexivity.
Qed.

Lemma obs_time_whole_table_witness :
  obs_time ([event 1 1 10] ++ event 1 2 (21 # 2) :: event 2 1 3 :: [])
  == obs_time ([event 1 1 10] ++ [event 1 2 (21 # 2)])
     + (3 - (21 # 2)) + obs_time [event 2 1 3].
Proof.
  destruct obs_time_whole_table as (_ & _ & Hneg & _).
  apply (Hneg [event 1 1 10] [] (event 1 2 (21 # 2)) (event 2 1 3)).
  reflexivity.
Defined.
End LivetimeFacts.

(** ** Excess and significance *)

Module SignificanceFacts.
Import Significance.
Import Lra.
Local Open Scope R_scope.

(** Turns [INR] of a numeral into the real numeral. *)
Ltac inr_literals :=
  rewrite ?INR_IZR_INZ;
  repeat match goal with
         | |- context [Z.of_nat ?n] =>
             let z := eval vm_compute in (Z.of_nat n) in
             change (Z.of_nat n) with z
         end.

Lemma ln_le_sub1 (u : R) : 0 < u -> ln u <= u - 1.
Proof.
  intros Hu. pose proof (exp_ineq1_le (ln u)) as H.
  rewrite exp_ln in H by assumption. lra.
Qed.

Lemma ln_lt_sub1 (u : R) : 0 < u -> u <> 1 -> ln u < u - 1.
Proof.
  intros Hu Hne.
  assert (Hl : ln u <> 0).
  { intros H0. apply Hne. rewrite <- (exp_ln u), H0 by assumption. apply exp_0. }
  pose proof (exp_ineq1 (ln u) Hl) as H.
  rewrite exp_ln in H by assumption. lra.
Qed.

(** [x - y <= x ln (x / y)], with the value [0] of the right side at [x = 0]. *)
Lemma xlog_ge (x y : R) : 0 <= x -> 0 < y -> x - y <= x * ln (x / y).
Proof.
  intros Hx Hy. destruct Hx as [Hx | <-]; [| lra].
  assert (Hq : 0 < y / x) by (apply Rdiv_lt_0_compat; assumption).
  replace (x / y) with (/ (y / x)) by (field; lra).
  rewrite ln_Rinv by assumption.
  pose proof (ln_le_sub1 _ Hq) as H.
  assert (x * ln (y / x) <= x * (y / x - 1)) by (apply Rmult_le_compat_l; lra).
  replace (x * (y / x - 1)) with (y - x) in * by (field; lra). lra.
Qed.

Lemma xlog_gt (x y : R) : 0 <= x -> 0 < y -> x <> y -> x - y < x * ln (x / y).
Proof.
  intros Hx Hy Hne. destruct Hx as [Hx | <-]; [| lra].
  assert (Hq : 0 < y / x) by (apply Rdiv_lt_0_compat; assumption).
  assert (Hq1 : y / x <> 1).
  { intros H. apply Hne. apply (Rmult_eq_compat_r x) in H.
    unfold Rdiv in H. rewrite Rmult_assoc, Rinv_l in H; lra. }
  replace (x / y) with (/ (y / x)) by (field; lra).
  rewrite ln_Rinv by assumption.
  pose proof (ln_lt_sub1 _ Hq Hq1) as H.
  assert (x * ln (y / x) < x * (y / x - 1)) by (apply Rmult_lt_compat_l; lra).
  replace (x * (y / x - 1)) with (y - x) in * by (field; lra). lra.
Qed.

Lemma count_log_INR (n : nat) (x : R) : count_log n x = INR n * ln x.
Proof. destruct n; [simpl; ring | reflexivity]. Qed.

Lemma ts_li_ma (n_on n_off : nat) (a : R) :
  ts n_on n_off a = li_ma_ts (INR n_on) (INR n_off) a.
Proof. unfold ts, li_ma_ts. now rewrite !count_log_INR. Qed.

(** The two logarithm arguments, as ratios to the zero-excess counts. *)
Lemma on_arg (x y a : R) : 0 < a -> 0 < x + y ->
  (1 + a) / a * (x / (x + y)) = x / (a / (1 + a) * (x + y)).
Proof. intros. field. lra. Qed.

Lemma off_arg (x y a : R) : 0 < a -> 0 < x + y ->
  (1 + a) * (y / (x + y)) = y / (1 / (1 + a) * (x + y)).
Proof. intros. field. lra. Qed.

Lemma li_ma_ts_nonneg (x y a : R) :
  0 <= x -> 0 <= y -> 0 < x + y -> 0 < a -> 0 <= li_ma_ts x y a.
Proof.
  intros Hx Hy Hxy Ha. unfold li_ma_ts.
  rewrite on_arg, off_arg by assumption.
  assert (Hu : 0 < a / (1 + a) * (x + y)).
  { apply Rmult_lt_0_compat; [apply Rdiv_lt_0_compat|]; lra. }
  assert (Hv : 0 < 1 / (1 + a) * (x + y)).
  { apply Rmult_lt_0_compat; [apply Rdiv_lt_0_compat|]; lra. }
  pose proof (xlog_ge x _ Hx Hu). pose proof (xlog_ge y _ Hy Hv).
  assert (a / (1 + a) * (x + y) + 1 / (1 + a) * (x + y) = x + y) by (field; lra).
  lra.
Qed.

Lemma li_ma_ts_pos (x y a : R) :
  0 <= x -> 0 <= y -> 0 < x + y -> 0 < a -> x <> a * y -> 0 < li_ma_ts x y a.
Proof.
  intros Hx Hy Hxy Ha Hne. unfold li_ma_ts.
  rewrite on_arg, off_arg by assumption.
  assert (Hu : 0 < a / (1 + a) * (x + y)).
  { apply Rmult_lt_0_compat; [apply Rdiv_lt_0_compat|]; lra. }
  assert (Hv : 0 < 1 / (1 + a) * (x + y)).
  { apply Rmult_lt_0_compat; [apply Rdiv_lt_0_compat|]; lra. }
  assert (Hxu : x <> a / (1 + a) * (x + y)).
  { intros H. apply Hne. apply (Rmult_eq_compat_r (1 + a)) in H.
    replace (a / (1 + a) * (x + y) * (1 + a)) with (a * (x + y)) in H by (field; lra).
    lra. }
  pose proof (xlog_gt x _ Hx Hu Hxu). pose proof (xlog_ge y _ Hy Hv).
  assert (a / (1 + a) * (x + y) + 1 / (1 + a) * (x + y) = x + y) by (field; lra).
  lra.
Qed.








Lemma sign_pos (x : R) : 0 < x -> sign x = 1.
Proof. intros H. unfold sign. destruct (Rlt_dec 0 x); [reflexivity | contradiction]. Qed.

Lemma sign_neg (x : R) : x < 0 -> sign x = -1.
Proof.
  intros H. unfold sign. destruct (Rlt_dec 0 x); [lra |].
  destruct (Rlt_dec x 0); [reflexivity | contradiction].
Qed.

Lemma sign_zero : sign 0 = 0.
Proof.
  unfold sign. destruct (Rlt_dec 0 0); [lra |]. destruct (Rlt_dec 0 0); [lra | reflexivity].
Qed.

Lemma sqrt_ts_defined (n_on n_off : nat) (a : R) :
  (0 < n_on + n_off)%nat ->
  sqrt_ts n_on n_off a
  = Some (sign (n_excess n_on n_off a) * sqrt (ts n_on n_off a)).
Proof.
  intros H. unfold sqrt_ts.
  destruct (Nat.eqb_spec (n_on + n_off) 0); [lia | reflexivity].
Qed.

Lemma counts_pos (n_on n_off : nat) :
  (0 < n_on + n_off)%nat -> 0 <= INR n_on /\ 0 <= INR n_off /\ 0 < INR n_on + INR n_off.
Proof.
  intros H. repeat split; try apply pos_INR.
  rewrite <- plus_INR. now apply (lt_0_INR (n_on + n_off)).
Qed.

Lemma alpha_pos (n : nat) : (1 <= n)%nat -> 0 < alpha n.
Proof.
  intros H. unfold alpha. apply Rdiv_lt_0_compat; [lra |]. now apply lt_0_INR.
Qed.

Lemma li_ma_ts_INR_nonneg (n_on n_off : nat) (a : R) :
  (0 < n_on + n_off)%nat -> 0 < a -> 0 <= li_ma_ts (INR n_on) (INR n_off) a.
Proof.
  intros Hn Ha. destruct (counts_pos n_on n_off Hn) as (H1 & H2 & H3).
  now apply li_ma_ts_nonneg.
Qed.

(** The reported value has the sign of the excess. *)
Lemma signed_sqrt_sign (e t : R) :
  0 <= t -> (e <> 0 -> 0 < t) ->
  (0 < e -> 0 < sign e * sqrt t) /\
  (e < 0 -> sign e * sqrt t < 0) /\
  (e = 0 -> sign e * sqrt t = 0).
Proof.
  intros Ht Hpos. repeat split.
  - intros He. rewrite sign_pos by assumption.
    assert (0 < sqrt t) by (apply sqrt_lt_R0, Hpos; lra). lra.
  - intros He. rewrite sign_neg by assumption.
    assert (0 < sqrt t) by (apply sqrt_lt_R0, Hpos; lra). lra.
  - intros ->. rewrite sign_zero. ring.
Qed.

Lemma n_excess_eq (n_on n_off : nat) (a : R) :
  n_excess n_on n_off a = INR n_on - a * INR n_off.
Proof. unfold n_excess, n_off_scaled. ring. Qed.

(** C1: for counts with [n_on + n_off_total > 0] and [alpha = 1/N], the
    calculator returns [sign(n_on - alpha * n_off_total) * sqrt(TS)] with TS
    the Li&Ma test statistic, which is non-negative; the returned value is
    positive, negative or zero as the excess is. *)
Theorem li_ma_significance_formula (n_on n_off_total N : nat) :
  (1 <= N)%nat -> (0 < n_on + n_off_total)%nat ->
  let a := 1 / INR N in
  let e := INR n_on - a * INR n_off_total in
  let TS := 2 * (INR n_on
                   * ln (((1 + a) / a)
                         * (INR n_on / (INR n_on + INR n_off_total)))
                 + INR n_off_total
                   * ln ((1 + a)
                         * (INR n_off_total / (INR n_on + INR n_off_total)))) in
  0 <= TS /\
  n_excess n_on n_off_total (alpha N) = e /\
  exists s : R,
    significance n_on n_off_total N = Some s /\
    s = sign e * sqrt TS /\
    (0 < e -> 0 < s) /\ (e < 0 -> s < 0) /\ (e = 0 -> s = 0).
Proof.
  intros HN Hn a e TS.
  assert (Ha : 0 < a) by (apply (alpha_pos N HN)).
  destruct (counts_pos n_on n_off_total Hn) as (H1 & H2 & H3).
  assert (HTS : TS = li_ma_ts (INR n_on) (INR n_off_total) a) by reflexivity.
  assert (Hnn : 0 <= TS) by (rewrite HTS; now apply li_ma_ts_nonneg).
  assert (He : n_excess n_on n_off_total (alpha N) = e)
    by (unfold e, a, alpha; apply n_excess_eq).
  split; [exact Hnn |]. split; [exact He |].
  exists (sign e * sqrt TS). split; [| split; [reflexivity |]].
  - unfold significance. rewrite sqrt_ts_defined by assumption.
    rewrite He, ts_li_ma. reflexivity.
  - apply signed_sqrt_sign; [exact Hnn |].
    intros Hne. rewrite HTS. apply li_ma_ts_pos; try assumption.
    unfold e in Hne. lra.
Qed.

Lemma li_ma_significance_formula_witness :
  exists s : R, significance 120 180 3 = Some s /\ 0 < s.
Proof.
  destruct (li_ma_significance_formula 120 180 3 ltac:(lia) ltac:(lia))
    as (_ & _ & s & Hs & _ & Hpos & _).
  exists s. split; [exact Hs |]. apply Hpos.
  inr_literals. lra.
Defined.









(** C7: with [n_on = 120], [n_off_total = 180] and three OFF regions,
    [alpha = 1/3], [n_off_scaled = 60], [n_excess = 60], and the significance
    is the positive real number [sqrt (2 (120 ln (8/5) + 180 ln (4/5)))],
    the value of the Li&Ma formula on these counts. *)
Theorem scenario_120_180 :
  alpha 3 = 1 / 3 /\
  n_off_scaled 180 (alpha 3) = 60 /\
  n_excess 120 180 (alpha 3) = 60 /\
  li_ma_ts 120 180 (1 / 3) = 2 * (120 * ln (8 / 5) + 180 * ln (4 / 5)) /\
  exists s : R,
    significance 120 180 3 = Some s /\
    0 < s /\
    s = sqrt (li_ma_ts 120 180 (1 / 3)).
Proof.
  assert (Ha : alpha 3 = 1 / 3) by (unfold alpha; inr_literals; reflexivity).
  assert (Hs : n_off_scaled 180 (alpha 3) = 60)
    by (rewrite Ha; unfold n_off_scaled; inr_literals; field).
  assert (He : n_excess 120 180 (alpha 3) = 60)
    by (unfold n_excess; rewrite Hs; inr_literals; ring).
  assert (Hf : li_ma_ts 120 180 (1 / 3) = 2 * (120 * ln (8 / 5) + 180 * ln (4 / 5))).
  { unfold li_ma_ts.
    replace ((1 + 1 / 3) / (1 / 3) * (120 / (120 + 180))) with (8 / 5) by field.
    replace ((1 + 1 / 3) * (180 / (120 + 180))) with (4 / 5) by field.
    reflexivity. }
  repeat (split; [assumption |]).
  exists (sqrt (li_ma_ts 120 180 (1 / 3))). split; [| split; [| reflexivity]].
  - unfold significance. rewrite sqrt_ts_defined by lia.
    rewrite He, sign_pos by lra. rewrite ts_li_ma, Ha. inr_literals.
    f_equal. ring.
  - apply sqrt_lt_R0, li_ma_ts_pos; lra.
Qed.
End SignificanceFacts.

(** ** Observation time: further properties *)

Module LivetimeMore.
Import Livetime.
Import Lqa.
Local Open Scope Q_scope.

Lemma masked_cons2 (x y : Q) (rest : list Q) :
  obs_time_of (x :: y :: rest)
  = if QMicromega.Qlt_bool (y - x) 1
    then (y - x) + obs_time_of (y :: rest)
    else obs_time_of (y :: rest).
Proof.
  unfold obs_time_of. cbn [np_diff List.filter].
  destruct (QMicromega.Qlt_bool (y - x) 1); reflexivity.
Qed.

Lemma lt1_true (d : Q) : d < 1 -> QMicromega.Qlt_bool d 1 = true.
Proof. intros H. now apply QMicromega.Qlt_bool_iff. Qed.

Lemma lt1_spec (d : Q) :
  (QMicromega.Qlt_bool d 1 = true /\ d < 1) \/
  (QMicromega.Qlt_bool d 1 = false /\ 1 <= d).
Proof.
  destruct (QMicromega.Qlt_bool d 1) eqn:E.
  - left. split; [reflexivity |]. now apply QMicromega.Qlt_bool_iff.
  - right. split; [reflexivity |]. apply Qnot_lt_le. intros H.
    apply QMicromega.Qlt_bool_iff in H. congruence.
Qed.

Lemma np_diff_cons2 (x y : Q) (rest : list Q) :
  np_diff (x :: y :: rest) = (y - x) :: np_diff (y :: rest).
Proof. reflexivity. Qed.

Lemma np_sum_cons (d : Q) (l : list Q) : np_sum (d :: l) = d + np_sum l.
Proof. reflexivity. Qed.

(** The differences of a sequence sum to last minus first. *)
Lemma np_diff_telescopes (ts : list Q) :
  np_sum (np_diff ts) == List.last ts 0 - hd 0 ts.
Proof.
  induction ts as [| x [| y rest] IH].
  - cbn. ring.
  - cbn. ring.
  - rewrite np_diff_cons2, np_sum_cons, IH. cbn [hd].
    change (List.last (x :: y :: rest) 0) with (List.last (y :: rest) 0).
    ring.
Qed.

(** X1: when every consecutive difference of the timestamps is below 1 s,
    nothing is masked and the observation time is the last timestamp minus
    the first (0 for an empty table). *)
Theorem obs_time_without_long_gaps (event_data_mean : list (Row Q)) :
  let timestamps := map timestamp event_data_mean in
  Forall (fun d => d < 1) (np_diff timestamps) ->
  obs_time event_data_mean == List.last timestamps 0 - hd 0 timestamps.
Proof.
  intros timestamps Hgaps. unfold obs_time. fold timestamps.
  rewrite <- np_diff_telescopes. clearbody timestamps.
  induction timestamps as [| x [| y rest] IH]; [reflexivity | reflexivity |].
  rewrite masked_cons2. rewrite np_diff_cons2 in Hgaps |- *.
  apply Forall_cons in Hgaps as [Hd Hrest].
  rewrite lt1_true by assumption. rewrite (IH Hrest), np_sum_cons.
  reflexivity.
Qed.

Lemma obs_time_without_long_gaps_witness :
  obs_time [event 1 1 10; event 1 2 (21 # 2); event 1 3 (43 # 4)] == 3 # 4.
Proof.
  rewrite (obs_time_without_long_gaps
             [event 1 1 10; event 1 2 (21 # 2); event 1 3 (43 # 4)]).
  - reflexivity.
  - cbn. repeat constructor.
Defined.

(** X2: for timestamps in chronological order (no negative difference)
    the observation time lies between 0 and the span from the first to the
    last timestamp. *)
Theorem obs_time_chronological_bounds (event_data_mean : list (Row Q)) :
  let timestamps := map timestamp event_data_mean in
  Forall (fun d => 0 <= d) (np_diff timestamps) ->
  0 <= obs_time event_data_mean /\
  obs_time event_data_mean <= List.last timestamps 0 - hd 0 timestamps.
Proof.
  intros timestamps Hord. unfold obs_time. fold timestamps.
  rewrite <- np_diff_telescopes. clearbody timestamps.
  induction timestamps as [| x [| y rest] IH].
  - cbn. split; apply Qle_refl.
  - cbn. split; apply Qle_refl.
  - rewrite masked_cons2. rewrite np_diff_cons2 in Hord |- *.
    apply Forall_cons in Hord as [Hd Hrest].
    destruct (IH Hrest) as [Hlo Hhi]. rewrite np_sum_cons.
    destruct (QMicromega.Qlt_bool (y - x) 1); split; lra.
Qed.

Lemma obs_time_chronological_bounds_witness :
  0 <= obs_time [event 1 1 0; event 1 2 (1 # 2); event 1 3 50] /\
  obs_time [event 1 1 0; event 1 2 (1 # 2); event 1 3 50] <= 50 - 0.
Proof.
  apply (obs_time_chronological_bounds
           [event 1 1 0; event 1 2 (1 # 2); event 1 3 50]).
  cbn. repeat constructor; discriminate.
Defined.

Lemma lt1_compat (d d' : Q) :
  d == d' -> QMicromega.Qlt_bool d 1 = QMicromega.Qlt_bool d' 1.
Proof.
  intros Heq.
  destruct (lt1_spec d) as [[-> H] | [-> H]], (lt1_spec d') as [[-> H'] | [-> H']];
    try reflexivity; lra.
Qed.

(** X3: the observation time does not depend on the origin of the time
    axis: adding a constant to every timestamp leaves it unchanged. *)
Theorem obs_time_of_shift (c : Q) (timestamps : list Q) :
  obs_time_of (map (fun t => t + c) timestamps) == obs_time_of timestamps.
Proof.
  induction timestamps as [| x [| y rest] IH]; [reflexivity | reflexivity |].
  change (map (fun t => t + c) (x :: y :: rest))
    with ((x + c) :: (y + c) :: map (fun t => t + c) rest).
  rewrite !masked_cons2.
  change ((y + c) :: map (fun t => t + c) rest)
    with (map (fun t => t + c) (y :: rest)).
  assert (Hd : y + c - (x + c) == y - x) by ring.
  rewrite (lt1_compat _ _ Hd).
  destruct (QMicromega.Qlt_bool (y - x) 1); rewrite IH; [rewrite Hd |];
    reflexivity.
Qed.

(** X4: with fewer than two timestamps the observation time is 0; with
    [n >= 2] timestamps it stays strictly below [n - 1] seconds, each pair of
    neighbours contributing less than one second. *)
Theorem obs_time_of_below_event_count (timestamps : list Q) :
  ((length timestamps <= 1)%nat -> obs_time_of timestamps = 0) /\
  ((2 <= length timestamps)%nat ->
   obs_time_of timestamps < inject_Z (Z.of_nat (length timestamps)) - 1).
Proof.
  split.
  - intros Hlen. destruct timestamps as [| x [| y rest]];
      [reflexivity | reflexivity | cbn in Hlen; lia].
  - induction timestamps as [| x [| y rest] IH]; intros Hlen;
      [cbn in Hlen; lia | cbn in Hlen; lia |].
    rewrite masked_cons2.
    assert (Hn : inject_Z (Z.of_nat (length (x :: y :: rest)))
                 == inject_Z (Z.of_nat (length (y :: rest))) + 1).
    { cbn [length]. rewrite !Nat2Z.inj_succ. unfold Z.succ.
      rewrite !inject_Z_plus. reflexivity. }
    rewrite Hn.
    assert (Hrest : obs_time_of (y :: rest)
                    <= inject_Z (Z.of_nat (length (y :: rest))) - 1).
    { destruct rest as [| z rest'].
      - cbn. discriminate.
      - apply Qlt_le_weak, IH. cbn [length]. lia. }
    destruct (lt1_spec (y - x)) as [[-> Hd] | [-> Hd]]; lra.
Qed.

Lemma obs_time_of_below_event_count_witness :
  obs_time_of [0; 1 # 2; 1; 50; 503 # 10] < 5 - 1.
Proof.
  destruct (obs_time_of_below_event_count [0; 1 # 2; 1; 50; 503 # 10])
    as [_ H].
  apply H. cbn. lia.
Defined.

End LivetimeMore.

(** ** Histogram bins *)

Module BinningFacts.
Import Livetime Binning LivetimeMore.
Import Lqa.
Local Open Scope Q_scope.

Lemma np_diff_snoc (l : list Q) (x y : Q) :
  np_diff (l ++ [x; y]) = np_diff (l ++ [x]) ++ [y - x].
Proof.
  induction l as [| a [| b l'] IH]; [reflexivity | reflexivity |].
  change ((a :: b :: l') ++ [x; y]) with (a :: (b :: l') ++ [x; y]).
  change ((a :: b :: l') ++ [x]) with (a :: (b :: l') ++ [x]).
  change ((b :: l') ++ [x; y]) with (b :: (l' ++ [x; y])) at 1.
  change ((b :: l') ++ [x]) with (b :: (l' ++ [x])) at 1.
  rewrite !np_diff_cons2.
  change (b :: (l' ++ [x; y])) with ((b :: l') ++ [x; y]).
  change (b :: (l' ++ [x])) with ((b :: l') ++ [x]).
  rewrite IH. reflexivity.
Qed.

(** The samples [start + i * step], [i < n], are [step] apart. *)
Lemma np_diff_ramp (start step : Q) (k n : nat) :
  Forall (fun d => d == step)
    (np_diff (map (fun i => start + inject_Z (Z.of_nat i) * step) (seq k n))).
Proof.
  revert k. induction n as [| n IH]; intros k; [constructor |].
  destruct n as [| n']; [constructor |].
  change (seq k (S (S n'))) with (k :: seq (S k) (S n')).
  cbn [map]. change (seq (S k) (S n')) with (S k :: seq (S (S k)) n') at 1.
  cbn [map]. rewrite np_diff_cons2. constructor.
  - rewrite Nat2Z.inj_succ. unfold Z.succ. rewrite inject_Z_plus. ring.
  - apply (IH (S k)).
Qed.

Lemma np_linspace_unfold (start stop : Q) (n : nat) :
  np_linspace start stop (S (S n))
  = map (fun i => start + inject_Z (Z.of_nat i)
                          * ((stop - start) / inject_Z (Z.of_nat (S n))))
        (seq 0 (S n))
    ++ [stop].
Proof. reflexivity. Qed.

Lemma inject_nat_pos (n : nat) : 0 < inject_Z (Z.of_nat (S n)).
Proof.
  change 0 with (inject_Z 0). rewrite <- Zlt_Qlt. lia.
Qed.

(** X5: [np.linspace(start, stop, num)] has [num] samples; it starts at
    [start]; for [num >= 2] it ends at [stop], neighbouring samples are
    [(stop - start) / (num - 1)] apart, and for [start < stop] the samples
    increase strictly. *)
Theorem np_linspace_samples (start stop : Q) (num : nat) :
  let samples := np_linspace start stop num in
  length samples = num /\
  ((1 <= num)%nat -> hd 0 samples == start) /\
  ((2 <= num)%nat ->
   List.last samples 0 = stop /\
   Forall (fun d => d == (stop - start) / (inject_Z (Z.of_nat num) - 1))
          (np_diff samples) /\
   (start < stop -> Forall (fun d => 0 < d) (np_diff samples))).
Proof.
  intros samples. subst samples.
  destruct num as [| [| n]].
  - split; [reflexivity |]. split; intros H; lia.
  - split; [reflexivity |]. split; [intros _; reflexivity | intros H; lia].
  - rewrite np_linspace_unfold.
    set (step := (stop - start) / inject_Z (Z.of_nat (S n))).
    pose proof (inject_nat_pos n) as Hpos.
    assert (Hden : inject_Z (Z.of_nat (S (S n))) - 1
                   == inject_Z (Z.of_nat (S n))).
    { rewrite (Nat2Z.inj_succ (S n)). unfold Z.succ.
      rewrite inject_Z_plus. ring. }
    assert (Hgaps : Forall (fun d => d == step)
              (np_diff (map (fun i => start + inject_Z (Z.of_nat i) * step)
                            (seq 0 (S n)) ++ [stop]))).
    { assert (Hramp : forall f : nat -> Q,
                map f (seq 0 (S n)) = map f (seq 0 n) ++ [f n])
        by (intros f; rewrite seq_S, map_app; reflexivity).
      rewrite Hramp, <- app_assoc. cbn [app]. rewrite np_diff_snoc.
      apply Forall_app. split.
      - rewrite <- Hramp. apply np_diff_ramp.
      - constructor; [| constructor]. cbn beta. unfold step.
        assert (Hs : inject_Z (Z.of_nat (S n)) == inject_Z (Z.of_nat n) + 1).
        { rewrite Nat2Z.inj_succ. unfold Z.succ.
          rewrite inject_Z_plus. reflexivity. }
        rewrite Hs in Hpos |- *. field. lra. }
    split; [| split].
    + rewrite length_app, length_map, length_seq. cbn. lia.
    + intros _. cbn. ring.
    + intros _. split; [apply last_last |]. split.
      * eapply Forall_impl; [exact Hgaps |]. intros d Hd. cbn beta in Hd.
        rewrite Hd, Hden. reflexivity.
      * intros Hlt. eapply Forall_impl; [exact Hgaps |].
        intros d Hd. cbn beta in Hd. rewrite Hd. unfold step.
        apply Qlt_shift_div_l; [exact Hpos | lra].
Qed.

Lemma np_linspace_samples_witness :
  List.last (np_linspace 0 (9 # 10) 81) 0 = 9 # 10 /\
  Forall (fun d => 0 < d) (np_diff (np_linspace 0 (9 # 10) 81)).
Proof.
  destruct (np_linspace_samples 0 (9 # 10) 81) as (_ & _ & H).
  destruct (H ltac:(lia)) as (Hlast & _ & Hinc).
  split; [exact Hlast | apply Hinc; reflexivity].
Defined.

Lemma lookup_removelast (bins : list Q) (i : nat) :
  is_Some (bins !! S i) -> removelast bins !! i = bins !! i.
Proof.
  revert i. induction bins as [| x bins IH]; intros i [y Hy]; [discriminate |].
  destruct bins as [| x' bins']; [discriminate |].
  cbn [removelast]. destruct i as [| i]; [reflexivity |].
  cbn [lookup list_lookup]. apply IH. exists y. exact Hy.
Qed.

Lemma length_removelast (bins : list Q) :
  length (removelast bins) = (length bins - 1)%nat.
Proof.
  induction bins as [| x [| x' bins'] IH]; [reflexivity | reflexivity |].
  cbn [removelast length] in *. rewrite IH. lia.
Qed.

(** X6: there is one bin centre per pair of neighbouring edges; at bin
    [i] it is the midpoint of the two edges, the lower and the upper width
    are both half the bin width, and for [lo < hi] the centre lies strictly
    inside the bin. *)
Theorem bins_center_and_width (bins : list Q) :
  length (bins_center bins) = (length bins - 1)%nat /\
  forall (i : nat) (lo hi : Q),
    bins !! i = Some lo -> bins !! S i = Some hi ->
    exists c wl wu : Q,
      bins_center bins !! i = Some c /\
      fst (bins_width bins) !! i = Some wl /\
      snd (bins_width bins) !! i = Some wu /\
      c == (lo + hi) / 2 /\
      wl == (hi - lo) / 2 /\ wu == (hi - lo) / 2 /\
      (lo < hi -> lo < c /\ c < hi).
Proof.
  split.
  - unfold bins_center, lower_edges, upper_edges.
    rewrite length_zip_with, length_removelast, length_tl. lia.
  - intros i lo hi Hlo Hhi.
    assert (Hl : lower_edges bins !! i = Some lo).
    { unfold lower_edges. rewrite lookup_removelast; [exact Hlo | eauto]. }
    assert (Hu : upper_edges bins !! i = Some hi).
    { unfold upper_edges. rewrite lookup_tail. exact Hhi. }
    assert (Hc : bins_center bins !! i = Some ((lo + hi) / 2)).
    { unfold bins_center. rewrite lookup_zip_with, Hl, Hu. reflexivity. }
    exists ((lo + hi) / 2), ((lo + hi) / 2 - lo), (hi - (lo + hi) / 2).
    split; [exact Hc |]. unfold bins_width. cbn [fst snd].
    split; [rewrite lookup_zip_with, Hc, Hl; reflexivity |].
    split; [rewrite lookup_zip_with, Hu, Hc; reflexivity |].
    split; [reflexivity |]. split; [field |]. split; [field |].
    intros Hlt. split.
    + apply Qlt_shift_div_l; lra.
    + apply Qlt_shift_div_r; lra.
Qed.

Lemma bins_center_and_width_witness :
  exists c : Q,
    bins_center (np_linspace 0 (9 # 10) 81) !! 3%nat = Some c /\
    (27 # 800) < c /\ c < (36 # 800).
Proof.
  destruct (bins_center_and_width (np_linspace 0 (9 # 10) 81)) as [_ H].
  destruct (H 3%nat (0 + 3 * ((9 # 10) - 0) / 80) (0 + 4 * ((9 # 10) - 0) / 80))
    as (c & wl & wu & Hc & _ & _ & Hmid & _ & _ & Hin).
  - reflexivity.
  - reflexivity.
  - exists c. split; [exact Hc |].
    destruct Hin as [H1 H2]; [reflexivity |].
    split; [rewrite Hmid | rewrite Hmid]; reflexivity.
Defined.

End BinningFacts.

(** ** Energy slices *)

Module EnergySlicesFacts.
Import Livetime Binning EnergySlices LivetimeMore BinningFacts.
Import Lqa.
Local Open Scope Q_scope.

Lemma bin_pairs_lookup (bins : list Q) (i : nat) (lo hi : Q) :
  bin_pairs bins !! i = Some (lo, hi) <->
  bins !! i = Some lo /\ bins !! S i = Some hi.
Proof.
  unfold bin_pairs. rewrite lookup_zip_with, lookup_tail. split.
  - intros H. destruct (removelast bins !! i) as [x |] eqn:Hx; [| discriminate].
    destruct (bins !! S i) as [y |] eqn:Hy; [| discriminate].
    cbn in H. injection H as -> ->.
    rewrite lookup_removelast in Hx by (rewrite Hy; eauto). split; congruence.
  - intros [Hlo Hhi]. rewrite lookup_removelast by (rewrite Hhi; eauto).
    rewrite Hlo, Hhi. reflexivity.
Qed.

(** Increasing edges, read by position. *)
Lemma increasing_lookup (bins : list Q) :
  Forall (fun d => 0 < d) (np_diff bins) ->
  forall (i j : nat) (x y : Q),
    (i < j)%nat -> bins !! i = Some x -> bins !! j = Some y -> x < y.
Proof.
  induction bins as [| a [| b rest] IH]; intros Hinc i j x y Hij Hx Hy.
  - discriminate.
  - destruct j as [| j]; [lia | discriminate].
  - rewrite np_diff_cons2 in Hinc. apply Forall_cons in Hinc as [Hab Hrest].
    destruct j as [| j]; [lia |]. cbn [lookup list_lookup] in Hy.
    destruct i as [| i].
    + cbn in Hx. injection Hx as <-.
      destruct j as [| j].
      * cbn in Hy. injection Hy as <-. lra.
      * assert (b < y); [| lra].
        apply (IH Hrest 0%nat (S j) b y); [lia | reflexivity | exact Hy].
    + cbn [lookup list_lookup] in Hx.
      apply (IH Hrest i j x y); [lia | exact Hx | exact Hy].
Qed.

Lemma increasing_lookup_le (bins : list Q) :
  Forall (fun d => 0 < d) (np_diff bins) ->
  forall (i j : nat) (x y : Q),
    (i <= j)%nat -> bins !! i = Some x -> bins !! j = Some y -> x <= y.
Proof.
  intros Hinc i j x y Hij Hx Hy.
  destruct (decide (i = j)) as [-> | Hne].
  - rewrite Hx in Hy. injection Hy as <-. apply Qle_refl.
  - apply Qlt_le_weak, (increasing_lookup bins Hinc i j); [lia | done | done].
Qed.

Lemma in_energy_slice (lo hi : Q) (event_list : list (Row Q)) (r : Row Q) :
  In r (energy_slice lo hi event_list) <->
  In r event_list /\ lo < reco_energy r /\ reco_energy r < hi.
Proof.
  unfold energy_slice. rewrite filter_In, andb_true_iff.
  rewrite !QMicromega.Qlt_bool_iff. reflexivity.
Qed.

Lemma energy_slices_lookup (bins : list Q) (event_list : list (Row Q))
    (i : nat) (slice : list (Row Q)) :
  energy_slices bins event_list !! i = Some slice ->
  exists lo hi : Q,
    bins !! i = Some lo /\ bins !! S i = Some hi /\
    slice = energy_slice lo hi event_list.
Proof.
  unfold energy_slices. intros H.
  change (map ?f ?l) with (f <$> l) in H.
  rewrite list_lookup_fmap in H.
  destruct (bin_pairs bins !! i) as [[lo hi] |] eqn:Hp; [| discriminate].
  cbn in H. injection H as <-. apply bin_pairs_lookup in Hp as [Hlo Hhi].
  exists lo, hi. done.
Qed.

Lemma lookup_List_last (x : Q) (l : list Q) :
  (x :: l) !! (length (x :: l) - 1)%nat = Some (List.last (x :: l) 0).
Proof.
  revert x. induction l as [| y l IH]; intros x; [reflexivity |].
  change (List.last (x :: y :: l) 0) with (List.last (y :: l) 0).
  rewrite <- IH. cbn [length]. rewrite !Nat.sub_succ, !Nat.sub_0_r.
  reflexivity.
Qed.

(** X7: for strictly increasing energy edges there is one slice per pair
    of neighbouring edges, no event is in two slices, an event whose energy
    equals an edge is in no slice, and every event of a slice has its energy
    strictly between the first and the last edge. *)
Theorem energy_slices_disjoint (energy_bins : list Q)
    (event_list : list (Row Q)) :
  Forall (fun d => 0 < d) (np_diff energy_bins) ->
  length (energy_slices energy_bins event_list)
  = (length energy_bins - 1)%nat /\
  (forall (i j : nat) (si sj : list (Row Q)) (r : Row Q),
     energy_slices energy_bins event_list !! i = Some si ->
     energy_slices energy_bins event_list !! j = Some sj ->
     In r si -> In r sj -> i = j) /\
  (forall (i : nat) (si : list (Row Q)) (r : Row Q) (edge : Q),
     energy_slices energy_bins event_list !! i = Some si ->
     In edge energy_bins -> reco_energy r == edge -> ~ In r si) /\
  (forall (i : nat) (si : list (Row Q)) (r : Row Q),
     energy_slices energy_bins event_list !! i = Some si -> In r si ->
     hd 0 energy_bins < reco_energy r /\
     reco_energy r < List.last energy_bins 0).
Proof.
  intros Hinc.
  assert (Hdisj : forall (i j : nat) (si sj : list (Row Q)) (r : Row Q),
     (i < j)%nat ->
     energy_slices energy_bins event_list !! i = Some si ->
     energy_slices energy_bins event_list !! j = Some sj ->
     In r si -> In r sj -> False).
  { intros i j si sj r Hij Hi Hj Hri Hrj.
    apply energy_slices_lookup in Hi as (lo & hi & _ & Hhi & ->).
    apply energy_slices_lookup in Hj as (lo' & hi' & Hlo' & _ & ->).
    apply in_energy_slice in Hri as (_ & _ & H1).
    apply in_energy_slice in Hrj as (_ & H2 & _).
    pose proof (increasing_lookup_le energy_bins Hinc (S i) j hi lo'
                  ltac:(lia) Hhi Hlo').
    lra. }
  split; [| split; [| split]].
  - unfold energy_slices, bin_pairs.
    rewrite length_map, length_zip_with, length_removelast, length_tl. lia.
  - intros i j si sj r Hi Hj Hri Hrj.
    destruct (Nat.lt_trichotomy i j) as [Hlt | [Heq | Hgt]]; [| exact Heq |].
    + exfalso. exact (Hdisj i j si sj r Hlt Hi Hj Hri Hrj).
    + exfalso. exact (Hdisj j i sj si r Hgt Hj Hi Hrj Hri).
  - intros i si r edge Hi Hedge Heq Hr.
    apply energy_slices_lookup in Hi as (lo & hi & Hlo & Hhi & ->).
    apply in_energy_slice in Hr as (_ & H1 & H2).
    apply list_elem_of_In, list_elem_of_lookup in Hedge as [k Hk].
    destruct (le_lt_dec k i) as [Hki | Hik].
    + pose proof (increasing_lookup_le energy_bins Hinc k i edge lo Hki Hk Hlo).
      lra.
    + pose proof (increasing_lookup_le energy_bins Hinc (S i) k hi edge
                    ltac:(lia) Hhi Hk).
      lra.
  - intros i si r Hi Hr.
    apply energy_slices_lookup in Hi as (lo & hi & Hlo & Hhi & ->).
    apply in_energy_slice in Hr as (_ & H1 & H2).
    destruct energy_bins as [| first rest]; [discriminate |].
    assert (Hfirst : first <= lo).
    { apply (increasing_lookup_le (first :: rest) Hinc 0%nat i);
        [lia | reflexivity | exact Hlo]. }
    assert (Hlast : hi <= List.last (first :: rest) 0).
    { pose proof (lookup_List_last first rest) as Hn.
      apply (increasing_lookup_le (first :: rest) Hinc (S i)
               (length (first :: rest) - 1)%nat hi _); [| exact Hhi | exact Hn].
      apply lookup_lt_Some in Hhi. lia. }
    cbn [hd]. lra.
Qed.

(** The number of bins an energy falls into. *)
Lemma bin_pairs_cons2 (x0 x1 : Q) (rest : list Q) :
  bin_pairs (x0 :: x1 :: rest) = (x0, x1) :: bin_pairs (x1 :: rest).
Proof. reflexivity. Qed.

Lemma ltb_spec (x y : Q) :
  (QMicromega.Qlt_bool x y = true /\ x < y) \/
  (QMicromega.Qlt_bool x y = false /\ y <= x).
Proof.
  destruct (QMicromega.Qlt_bool x y) eqn:E.
  - left. split; [reflexivity |]. now apply QMicromega.Qlt_bool_iff.
  - right. split; [reflexivity |]. apply Qnot_lt_le. intros H.
    apply QMicromega.Qlt_bool_iff in H. congruence.
Qed.

Lemma eqb_spec (x y : Q) :
  (Qeq_bool x y = true /\ x == y) \/ (Qeq_bool x y = false /\ ~ x == y).
Proof.
  destruct (Qeq_bool x y) eqn:E.
  - left. split; [reflexivity |]. now apply Qeq_bool_iff.
  - right. split; [reflexivity |]. intros H. apply Qeq_bool_iff in H.
    congruence.
Qed.

Lemma first_le_last (x : Q) (l : list Q) :
  Forall (fun d => 0 < d) (np_diff (x :: l)) -> x <= List.last (x :: l) 0.
Proof.
  intros Hinc.
  apply (increasing_lookup_le (x :: l) Hinc 0%nat (length (x :: l) - 1)%nat);
    [lia | reflexivity | apply lookup_List_last].
Qed.

Lemma below_first_not_on_edge (x e : Q) (l : list Q) :
  Forall (fun d => 0 < d) (np_diff (x :: l)) -> e < x ->
  on_edge (x :: l) e = false.
Proof.
  intros Hinc He. unfold on_edge.
  destruct (existsb (Qeq_bool e) (x :: l)) eqn:E; [| reflexivity].
  apply existsb_exists in E as (edge & Hin & Heq).
  apply Qeq_bool_iff in Heq.
  apply list_elem_of_In, list_elem_of_lookup in Hin as [k Hk].
  pose proof (increasing_lookup_le (x :: l) Hinc 0%nat k x edge
                ltac:(lia) eq_refl Hk).
  lra.
Qed.

Lemma bins_containing (bins : list Q) (e : Q) :
  Forall (fun d => 0 < d) (np_diff bins) ->
  length (List.filter (fun p => QMicromega.Qlt_bool (fst p) e
                                && QMicromega.Qlt_bool e (snd p))
                      (bin_pairs bins))
  = if strictly_inside bins e then 1%nat else 0%nat.
Proof.
  induction bins as [| x0 [| x1 rest] IH]; intros Hinc.
  - unfold strictly_inside, on_edge. cbn [bin_pairs removelast tl zip_with
      List.filter length hd List.last existsb].
    destruct (ltb_spec 0 e) as [[-> H]|[-> H]],
             (ltb_spec e 0) as [[-> H']|[-> H']];
      cbn [andb negb]; try reflexivity; lra.
  - unfold strictly_inside, on_edge. cbn [bin_pairs removelast tl zip_with
      List.filter length hd List.last existsb].
    destruct (ltb_spec x0 e) as [[-> H]|[-> H]],
             (ltb_spec e x0) as [[-> H']|[-> H']];
      cbn [andb negb]; try reflexivity; lra.
  - rewrite np_diff_cons2 in Hinc. apply Forall_cons in Hinc as [H01 Hrest].
    specialize (IH Hrest). rewrite bin_pairs_cons2. cbn [List.filter fst snd].
    unfold strictly_inside in *. cbn [hd] in *.
    change (List.last (x0 :: x1 :: rest) 0) with (List.last (x1 :: rest) 0).
    pose proof (first_le_last x1 rest Hrest) as Hlast.
    assert (Hedge : on_edge (x0 :: x1 :: rest) e
                    = Qeq_bool e x0 || on_edge (x1 :: rest) e) by reflexivity.
    rewrite Hedge.
    destruct (ltb_spec x0 e) as [[E0 Hx0]|[E0 Hx0]];
    destruct (ltb_spec e x1) as [[E01 Hx1]|[E01 Hx1]];
    destruct (ltb_spec x1 e) as [[E1 Hx1']|[E1 Hx1']];
    destruct (eqb_spec e x0) as [[Ee He0]|[Ee He0]];
    destruct (ltb_spec e (List.last (x1 :: rest) 0)) as [[E2 Hl]|[E2 Hl]];
    rewrite ?E0, ?E01, ?Ee; cbn [andb orb negb length];
    rewrite IH, ?E1, ?E2; cbn [andb orb negb];
    try lra; try reflexivity.
    all: try (rewrite (below_first_not_on_edge x1 e rest Hrest Hx1);
              reflexivity).
    all: assert (Hon : on_edge (x1 :: rest) e = true)
      by (unfold on_edge; cbn [existsb];
          assert (Heq : e == x1) by lra;
          apply Qeq_bool_iff in Heq; rewrite Heq; reflexivity);
      rewrite Hon; reflexivity.
Qed.

Lemma energy_slices_cons (bins : list Q) (r : Row Q) (l : list (Row Q)) :
  sum_list (map length (energy_slices bins (r :: l)))
  = (length (List.filter
               (fun p => QMicromega.Qlt_bool (fst p) (reco_energy r)
                         && QMicromega.Qlt_bool (reco_energy r) (snd p))
               (bin_pairs bins))
     + sum_list (map length (energy_slices bins l)))%nat.
Proof.
  unfold energy_slices. induction (bin_pairs bins) as [| p pairs IH];
    [reflexivity |].
  cbn [map sum_list List.filter]. rewrite IH.
  unfold energy_slice at 1. cbn [List.filter].
  fold (energy_slice (fst p) (snd p) l).
  destruct (QMicromega.Qlt_bool (fst p) (reco_energy r)
            && QMicromega.Qlt_bool (reco_energy r) (snd p));
    cbn [length]; unfold Datatypes.id; lia.
Qed.

(** X8: for strictly increasing energy edges the slices together hold
    exactly the events whose energy is strictly between the first and the
    last edge and on no edge. *)
Theorem energy_slices_total (energy_bins : list Q)
    (event_list : list (Row Q)) :
  Forall (fun d => 0 < d) (np_diff energy_bins) ->
  sum_list (map length (energy_slices energy_bins event_list))
  = length (List.filter
              (fun r => strictly_inside energy_bins (reco_energy r))
              event_list).
Proof.
  intros Hinc. induction event_list as [| r l IH].
  - unfold energy_slices. induction (bin_pairs energy_bins) as [| p pairs IHp];
      [reflexivity | cbn [map sum_list]; rewrite IHp; reflexivity].
  - rewrite energy_slices_cons, IH, bins_containing by exact Hinc.
    cbn [List.filter].
    destruct (strictly_inside energy_bins (reco_energy r)); reflexivity.
Qed.

Lemma energy_slices_disjoint_witness :
  length (energy_slices [1 # 10; 1; 10]
            [event_of_energy (1 # 2); event_of_energy 1; event_of_energy 5])
  = 2%nat.
Proof.
  destruct (energy_slices_disjoint [1 # 10; 1; 10]
              [event_of_energy (1 # 2); event_of_energy 1; event_of_energy 5])
    as [Hlen _].
  - cbn. repeat constructor.
  - exact Hlen.
Defined.

Lemma energy_slices_total_witness :
  sum_list (map length
    (energy_slices [1 # 10; 1; 10]
       [event_of_energy (1 # 2); event_of_energy 1; event_of_energy 5]))
  = 2%nat.
Proof.
  rewrite (energy_slices_total [1 # 10; 1; 10]).
  - reflexivity.
  - cbn. repeat constructor.
Defined.

End EnergySlicesFacts.

(** ** Grid of the energy-bin panels *)

Module SubplotGridFacts.
Import SubplotGrid.

Lemma n_rows_div (n_bins : nat) : n_rows n_bins = ((n_bins + 2) / 3)%nat.
Proof.
  unfold n_rows, n_columns.
  assert (Hq : Qceiling (inject_Z (Z.of_nat n_bins) / inject_Z (Z.of_nat 3))
               = ((Z.of_nat n_bins + 2) / 3)%Z).
  { change (Z.of_nat 3) with 3%Z.
    unfold Qceiling, Qfloor, Qdiv, Qmult, Qinv, Qopp, inject_Z. cbn.
    rewrite Z.mul_1_r.
    pose proof (Z.div_mod (- Z.of_nat n_bins) 3 ltac:(lia)) as H1.
    pose proof (Z.mod_pos_bound (- Z.of_nat n_bins) 3 ltac:(lia)) as H2.
    pose proof (Z.div_mod (Z.of_nat n_bins + 2) 3 ltac:(lia)) as H3.
    pose proof (Z.mod_pos_bound (Z.of_nat n_bins + 2) 3 ltac:(lia)) as H4.
    change (1 * 3)%positive with 3%positive. lia. }
  rewrite Hq. rewrite <- (Nat2Z.id ((n_bins + 2) / 3)).
  f_equal. rewrite Nat2Z.inj_div, Nat2Z.inj_add. reflexivity.
Qed.

Lemma list_prod_lookup (b : nat) :
  (0 < b)%nat ->
  forall (a k i : nat), (i < a * b)%nat ->
    list_prod (seq k a) (seq 0 b) !! i = Some ((k + i / b)%nat, (i mod b)%nat).
Proof.
  intros Hb. induction a as [| a IH]; intros k i Hi; [lia |].
  cbn [seq list_prod].
  destruct (le_lt_dec b i) as [Hge | Hlt].
  - rewrite lookup_app_r by (rewrite length_map, length_seq; exact Hge).
    rewrite length_map, length_seq.
    rewrite (IH (S k) (i - b)%nat) by lia.
    assert (Hi' : i = ((i - b) + 1 * b)%nat) by lia.
    rewrite Hi' at 3 4. rewrite Nat.div_add, Nat.Div0.mod_add by lia.
    f_equal. f_equal. lia.
  - rewrite lookup_app_l by (rewrite length_map, length_seq; exact Hlt).
    change (map (fun y => (k, y)) (seq 0 b)) with ((fun y => (k, y)) <$> seq 0 b).
    rewrite list_lookup_fmap, lookup_seq_lt by exact Hlt. cbn.
    rewrite Nat.div_small, Nat.mod_small by exact Hlt. f_equal. f_equal. lia.
Qed.

(** X9: the grid has [n_rows * n_columns] locations, at least as many as
    bins and fewer than a row more; bin [i_bin] finds its location
    [locs[i_bin]], which is row [i_bin / n_columns], column
    [i_bin mod n_columns]. *)
Theorem grid_location_of_every_bin (n_bins : nat) :
  length (locs n_bins) = (n_rows n_bins * n_columns)%nat /\
  (n_bins <= length (locs n_bins) < n_bins + n_columns)%nat /\
  forall i_bin : nat, (i_bin < n_bins)%nat ->
    locs n_bins !! i_bin
    = Some ((i_bin / n_columns)%nat, (i_bin mod n_columns)%nat).
Proof.
  assert (Hlen : length (locs n_bins) = (n_rows n_bins * n_columns)%nat).
  { unfold locs. rewrite length_prod, !length_seq. reflexivity. }
  assert (Hrows : (n_bins <= n_rows n_bins * 3 < n_bins + 3)%nat).
  { rewrite n_rows_div.
    pose proof (Nat.div_mod_eq (n_bins + 2) 3) as H1.
    pose proof (Nat.mod_upper_bound (n_bins + 2) 3 ltac:(lia)) as H2. lia. }
  split; [exact Hlen |]. split; [rewrite Hlen; exact Hrows |].
  intros i_bin Hi. unfold locs.
  rewrite (list_prod_lookup n_columns ltac:(unfold n_columns; lia)
             (n_rows n_bins) 0 i_bin) by (unfold n_columns; lia).
  reflexivity.
Qed.

Lemma grid_location_of_every_bin_witness :
  locs 6 !! 4%nat = Some (1%nat, 1%nat).
Proof.
  destruct (grid_location_of_every_bin 6) as (_ & _ & H).
  apply (H 4%nat). lia.
Defined.

End SubplotGridFacts.

(** ** ON regions of the two data stores *)

Section OnRegionFacts.

Context {V : Type}.

(** X10: once the ON region of the first data store is computed, the ON
    region computed for the second data store is that same region, whatever
    the metadata [event_meta_1] and [aeff_meta_1] of the second store. *)
Theorem second_on_region_is_the_first
    (event_meta aeff_meta event_meta_1 aeff_meta_1 : gmap string V)
    (target_position : V * V) (on_region : SkyRegion V) :
  target_position_of event_meta = Some target_position ->
  on_region_of event_meta aeff_meta = Some on_region ->
  on_region_1_of event_meta aeff_meta target_position
                 event_meta_1 aeff_meta_1 = Some on_region.
Proof.
  unfold on_region_of, on_region_1_of. intros -> Hon. cbn in *.
  destruct (aeff_meta !! "RAD_MAX"); exact Hon.
Qed.

End OnRegionFacts.

Lemma second_on_region_is_the_first_witness :
  on_region_1_of (V := Z)
    {[ "RA_OBJ" := 83%Z; "DEC_OBJ" := 22%Z ]} {[ "RAD_MAX" := 1%Z ]}
    (83%Z, 22%Z)
    {[ "RA_OBJ" := 10%Z; "DEC_OBJ" := 20%Z ]} ∅
  = Some (CircleSkyRegion (83%Z, 22%Z) 1%Z).
Proof.
  apply second_on_region_is_the_first; reflexivity.
Defined.

(** ** Excess *)

Module ExcessFacts.
Import Significance.
Import Lra.
Local Open Scope R_scope.

(** X11: for [n_regions_off >= 1], [n_regions_off * n_off_scaled] is
    [n_off_total], and the excess is positive, zero or negative as
    [n_regions_off * n_on] is above, equal to or below [n_off_total]
    (in exact arithmetic). *)
Theorem excess_sign_by_counts (n_on n_off_total n_regions_off : nat) :
  (1 <= n_regions_off)%nat ->
  INR n_regions_off * n_off_scaled n_off_total (alpha n_regions_off)
  = INR n_off_total /\
  (0 < n_excess n_on n_off_total (alpha n_regions_off)
   <-> (n_off_total < n_regions_off * n_on)%nat) /\
  (n_excess n_on n_off_total (alpha n_regions_off) = 0
   <-> (n_off_total = n_regions_off * n_on)%nat) /\
  (n_excess n_on n_off_total (alpha n_regions_off) < 0
   <-> (n_regions_off * n_on < n_off_total)%nat).
Proof.
  intros HN.
  assert (Hpos : 0 < INR n_regions_off) by (apply lt_0_INR; lia).
  assert (Hscaled : INR n_regions_off
                    * n_off_scaled n_off_total (alpha n_regions_off)
                    = INR n_off_total).
  { unfold n_off_scaled, alpha. field. lra. }
  assert (Hex : INR n_regions_off
                * n_excess n_on n_off_total (alpha n_regions_off)
                = INR (n_regions_off * n_on) - INR n_off_total).
  { unfold n_excess. rewrite Rmult_minus_distr_l, Hscaled, mult_INR.
    reflexivity. }
  set (e := n_excess n_on n_off_total (alpha n_regions_off)) in *.
  split; [exact Hscaled |].
  assert (Hsign : forall x : R,
            (0 < x <-> 0 < INR n_regions_off * x) /\
            (x = 0 <-> INR n_regions_off * x = 0) /\
            (x < 0 <-> INR n_regions_off * x < 0)).
  { intros x. repeat split; intros H; nra. }
  destruct (Hsign e) as (Hp & Hz & Hn). rewrite Hex in Hp, Hz, Hn.
  split; [| split].
  - rewrite Hp. split; intros H.
    + apply INR_lt. lra.
    + apply lt_INR in H. lra.
  - rewrite Hz. split; intros H.
    + apply INR_eq. lra.
    + rewrite H. lra.
  - rewrite Hn. split; intros H.
    + apply INR_lt. lra.
    + apply lt_INR in H. lra.
Qed.

Lemma excess_sign_by_counts_witness :
  0 < n_excess 120 180 (alpha 3).
Proof.
  destruct (excess_sign_by_counts 120 180 3 ltac:(lia)) as (_ & H & _).
  apply H. lia.
Defined.

End ExcessFacts.

(** ** Theta² assignment: the values written *)

Section Theta2Values.

Context {F : Type}.
Variable separation : SkyCoord F -> SkyCoord F -> F.
Variable square : F -> F.
Variable mean : list F -> F.
Variable calculate_off_coordinates :
  F -> F -> F -> F -> nat -> list (nat * SkyCoord F).
Variable on_coord : SkyCoord F.
Variable n_regions_off : nat.

Local Abbreviation th2' := (theta2 separation square).
Local Abbreviation offs' :=
  (off_coords_of mean calculate_off_coordinates on_coord n_regions_off).
Local Abbreviation body' :=
  (theta2_obs separation square mean calculate_off_coordinates on_coord
              n_regions_off).
Local Abbreviation row1' :=
  (theta2_row separation square mean calculate_off_coordinates on_coord
              n_regions_off).
Local Abbreviation row_all' :=
  (theta2_row_all separation square mean calculate_off_coordinates on_coord
                  n_regions_off).
Local Abbreviation assignment :=
  (theta2_assignment separation square mean calculate_off_coordinates
                     on_coord n_regions_off).

Lemma theta2_off_name_inj (i j : nat) :
  theta2_off_name i = theta2_off_name j -> i = j.
Proof.
  unfold theta2_off_name. cbn. intros H. injection H as H.
  by apply (inj pretty).
Qed.

(** The column of an OFF index that occurs once holds the theta² of its
    coordinate. *)
Lemma off_cols_lookup_key (e : SkyCoord F) (oc : list (nat * SkyCoord F))
    (m : gmap string F) (k : nat) (c : SkyCoord F) :
  NoDup (fst <$> oc) -> (k, c) ∈ oc ->
  off_cols separation square e oc m !! theta2_off_name k = Some (th2' c e).
Proof.
  revert m. induction oc as [| [k' c'] rest IH]; intros m Hnd Hin.
  - by apply not_elem_of_nil in Hin.
  - rewrite fmap_cons in Hnd. apply NoDup_cons in Hnd as [Hk' Hnd].
    cbn [off_cols foldl fst snd].
    change (foldl _ ?a rest) with (off_cols separation square e rest a).
    apply elem_of_cons in Hin as [Heq | Hin].
    + injection Heq as -> ->.
      rewrite off_cols_lookup_other; [apply lookup_insert_eq |].
      apply Forall_forall. intros [k2 c2] Hin2 Hname.
      cbn [fst] in Hname. apply theta2_off_name_inj in Hname as <-.
      apply Hk', list_elem_of_fmap. eexists (_, c2). split; [| exact Hin2].
      reflexivity.
    + by apply IH.
Qed.

(** X12: the loop over the observations returns a table of the same
    length whose rows keep index and DL2 columns; in every row [theta2_on]
    is the squared separation from the ON coordinate, each [theta2_off{i}]
    of an OFF coordinate of the row's observation (the indices being
    distinct) is the squared separation from that coordinate, and every
    other column is as before. *)
Theorem theta2_assignment_values (event_data_mean : list (Row F)) :
  exists after : list (Row F),
    assignment event_data_mean = Some after /\
    length after = length event_data_mean /\
    forall (i : nat) (r : Row F), event_data_mean !! i = Some r ->
      exists r' : Row F,
        after !! i = Some r' /\
        r' = with_cols (cols r') r /\
        cols r' !! "theta2_on" = Some (th2' on_coord (coord_of r)) /\
        (NoDup (fst <$> offs' (obs_id r) event_data_mean) ->
         forall (i_off : nat) (off_coord : SkyCoord F),
           (i_off, off_coord) ∈ offs' (obs_id r) event_data_mean ->
           cols r' !! theta2_off_name i_off
           = Some (th2' off_coord (coord_of r))) /\
        (forall col : string,
           col <> "theta2_on" ->
           (forall (i_off : nat) (off_coord : SkyCoord F),
              (i_off, off_coord) ∈ offs' (obs_id r) event_data_mean ->
              col <> theta2_off_name i_off) ->
           cols r' !! col = cols r !! col).
Proof.
  exists (row_all' event_data_mean <$> event_data_mean).
  split; [apply theta2_assignment_rows |]. split; [apply length_fmap |].
  intros i r Hr. exists (row_all' event_data_mean r).
  split; [by rewrite list_lookup_fmap, Hr |].
  unfold theta2_row_all. cbn [cols with_cols].
  split; [reflexivity |]. unfold theta2_cols. split; [| split].
  - rewrite off_cols_lookup_other by apply theta2_on_not_off.
    apply lookup_insert_eq.
  - intros Hnd i_off off_coord Hin. by apply off_cols_lookup_key.
  - intros col Hon Hoff. rewrite off_cols_lookup_other.
    + by apply lookup_insert_ne.
    + apply Forall_forall. intros [k c] Hin. by apply (Hoff k c).
Qed.

Lemma row1_keeps_base (o : Z) (t : list (Row F)) : keeps_base (row1' o t).
Proof.
  intros r. unfold theta2_row. case_decide; [by eexists |].
  exists (cols r). by rewrite with_cols_cols.
Qed.

Lemma two_passes (o1 o2 : Z) (t : list (Row F)) :
  o1 ∈ obs_id <$> t -> o2 ∈ obs_id <$> t ->
  body' o1 t ≫= body' o2 = Some ((row1' o2 t ∘ row1' o1 t) <$> t).
Proof.
  intros H1 H2. rewrite theta2_obs_rows by done. cbn [mbind option_bind].
  pose proof (row1_keeps_base o1 t) as Hkb.
  rewrite theta2_obs_rows by (by rewrite keeps_base_obs_ids).
  rewrite keeps_base_off_coords_row by done.
  by rewrite <- list_fmap_compose.
Qed.

(** X13: the passes of the loop body for two observations of the table
    commute: run in either order they succeed with the same table. *)
Theorem theta2_obs_passes_commute (o1 o2 : Z) (event_data_mean : list (Row F)) :
  o1 ∈ obs_id <$> event_data_mean -> o2 ∈ obs_id <$> event_data_mean ->
  exists after : list (Row F),
    body' o1 event_data_mean ≫= body' o2 = Some after /\
    body' o2 event_data_mean ≫= body' o1 = Some after.
Proof.
  intros H1 H2. eexists. split; [by apply two_passes |].
  rewrite two_passes by done. f_equal. apply list_fmap_ext.
  intros i r _. cbn [compose]. unfold theta2_row.
  destruct (decide (o1 = o2)) as [-> | Hne]; [reflexivity |].
  destruct (decide (obs_id r = o1)) as [E1 | E1],
           (decide (obs_id r = o2)) as [E2 | E2]; cbn [obs_id with_cols];
    rewrite ?decide_True, ?decide_False by congruence;
    try reflexivity; congruence.
Qed.

(** The loop leaves index and timestamps as they are. *)
Lemma theta2_assignment_timestamps (t : list (Row F)) :
  exists after : list (Row F),
    assignment t = Some after /\
    timestamp <$> after = timestamp <$> t /\
    obs_id <$> after = obs_id <$> t /\
    event_id <$> after = event_id <$> t.
Proof.
  exists (row_all' t <$> t). split; [apply theta2_assignment_rows |].
  rewrite <- !list_fmap_compose.
  repeat split; apply list_fmap_ext; intros i r _; reflexivity.
Qed.

End Theta2Values.

Lemma theta2_assignment_values_witness :
  exists after : list (Row Z),
    theta2_assignment Toy.separation Toy.square Toy.mean
      Toy.numbered_off_coordinates Toy.on_coord 3 Toy.table = Some after /\
    (after !! 1%nat ≫= fun r => cols r !! "theta2_off2") = Some 9%Z.
Proof.
  destruct (theta2_assignment_values Toy.separation Toy.square Toy.mean
              Toy.numbered_off_coordinates Toy.on_coord 3 Toy.table)
    as (after & Hrun & _ & Hrows).
  exists after. split; [exact Hrun |].
  destruct (Hrows 1%nat (Toy.row 1 2 85 21) eq_refl)
    as (r' & Hr' & _ & _ & Hoff & _).
  rewrite Hr'. cbn [mbind option_bind].
  change "theta2_off2" with (theta2_off_name 2).
  rewrite (Hoff ltac:(apply (bool_decide_unpack _); by vm_compute)
             2%nat (87%Z, 22%Z)).
  - reflexivity.
  - apply (bool_decide_unpack _). by vm_compute.
Defined.

Lemma theta2_obs_passes_commute_witness :
  theta2_obs Toy.separation Toy.square Toy.mean Toy.numbered_off_coordinates
    Toy.on_coord 3 1 Toy.table
  ≫= theta2_obs Toy.separation Toy.square Toy.mean
       Toy.numbered_off_coordinates Toy.on_coord 3 2
  = theta2_obs Toy.separation Toy.square Toy.mean Toy.numbered_off_coordinates
      Toy.on_coord 3 2 Toy.table
    ≫= theta2_obs Toy.separation Toy.square Toy.mean
         Toy.numbered_off_coordinates Toy.on_coord 3 1.
Proof.
  destruct (theta2_obs_passes_commute Toy.separation Toy.square Toy.mean
              Toy.numbered_off_coordinates Toy.on_coord 3 1 2 Toy.table)
    as (after & H12 & H21).
  - apply (bool_decide_unpack _). by vm_compute.
  - apply (bool_decide_unpack _). by vm_compute.
  - by rewrite H12, H21.
Defined.

(** ** Observation time and counts after the theta² assignment *)

(** X14: the theta² assignment does not change the observation time of
    the table. *)
Theorem obs_time_after_theta2_assignment
    (separation : SkyCoord Q -> SkyCoord Q -> Q) (square : Q -> Q)
    (mean : list Q -> Q)
    (calculate_off_coordinates : Q -> Q -> Q -> Q -> nat -> list (nat * SkyCoord Q))
    (on_coord : SkyCoord Q) (n_regions_off : nat)
    (event_data_mean : list (Row Q)) :
  exists after : list (Row Q),
    theta2_assignment separation square mean calculate_off_coordinates
      on_coord n_regions_off event_data_mean = Some after /\
    Livetime.obs_time after = Livetime.obs_time event_data_mean.
Proof.
  destruct (theta2_assignment_timestamps separation square mean
              calculate_off_coordinates on_coord n_regions_off event_data_mean)
    as (after & Hrun & Hts & _).
  exists after. split; [exact Hrun |]. unfold Livetime.obs_time.
  change (map timestamp after) with (timestamp <$> after).
  change (map timestamp event_data_mean) with (timestamp <$> event_data_mean).
  by rewrite Hts.
Qed.

Section Theta2Counts.

Context {F : Type}.
Variable lt : F -> F -> bool.
Variable separation : SkyCoord F -> SkyCoord F -> F.
Variable square : F -> F.
Variable mean : list F -> F.
Variable calculate_off_coordinates :
  F -> F -> F -> F -> nat -> list (nat * SkyCoord F).
Variable on_coord : SkyCoord F.
Variable n_regions_off : nat.
Variable combo_types : list Z.
Variable cut_value_gh cut_value_theta2 : F.

Local Abbreviation th2c := (theta2 separation square).
Local Abbreviation offsc :=
  (off_coords_of mean calculate_off_coordinates on_coord n_regions_off).
Local Abbreviation row_allc :=
  (theta2_row_all separation square mean calculate_off_coordinates on_coord
                  n_regions_off).
Local Abbreviation selected :=
  (fun r : Row F => bool_decide (combo_type r ∈ combo_types)
                    && lt cut_value_gh (gammaness r)).
Local Abbreviation loop :=
  (theta2_assignment_frame separation square mean calculate_off_coordinates
                           on_coord n_regions_off).

Lemma filter_fmap_length (p : Row F -> bool) (h : Row F -> Row F)
    (l : list (Row F)) :
  length (List.filter p (h <$> l)) = length (List.filter (p ∘ h) l).
Proof.
  induction l as [| r l IH]; [reflexivity |].
  rewrite fmap_cons. cbn [List.filter compose].
  destruct (p (h r)); cbn [length]; by rewrite IH.
Qed.

Lemma filter_filter_length (p q : Row F -> bool) (l : list (Row F)) :
  length (List.filter q (List.filter p l))
  = length (List.filter (fun r => p r && q r) l).
Proof.
  induction l as [| r l IH]; [reflexivity |].
  cbn [List.filter]. destruct (p r); cbn [andb List.filter]; [| exact IH].
  destruct (q r); cbn [length]; by rewrite IH.
Qed.

Lemma filter_ext_length (p q : Row F -> bool) (l : list (Row F)) :
  (forall r, In r l -> p r = q r) ->
  length (List.filter p l) = length (List.filter q l).
Proof.
  intros H. rewrite (filter_ext_in p q l H). reflexivity.
Qed.

Lemma selection_keeps_base (h : Row F -> Row F) (t : list (Row F)) :
  keeps_base h ->
  List.filter (fun r => selected r) (h <$> t)
  = h <$> List.filter (fun r => selected r) t.
Proof.
  intros Hh. induction t as [| r t IH]; [reflexivity |].
  rewrite fmap_cons. cbn [List.filter].
  assert (Hsel : selected (h r) = selected r)
    by (destruct (Hh r) as [m ->]; reflexivity).
  cbn beta in Hsel. rewrite Hsel.
  destruct (bool_decide (combo_type r ∈ combo_types)
            && lt cut_value_gh (gammaness r));
    [rewrite (fmap_cons h) |]; by rewrite IH.
Qed.

Lemma elem_of_columns_of (col : string) (t : list (Row F)) :
  col ∈ columns_of t <-> exists r, r ∈ t /\ is_Some (cols r !! col).
Proof.
  unfold columns_of. rewrite elem_of_union_list. split.
  - intros (X & HX & Hcol). apply list_elem_of_fmap in HX as (r & -> & Hr).
    exists r. split; [exact Hr |]. by apply elem_of_dom.
  - intros (r & Hr & Hcol). exists (dom (cols r)). split.
    + apply list_elem_of_fmap. by exists r.
    + by apply elem_of_dom.
Qed.

(** The loop on a table with its column index. *)
Lemma theta2_assignment_frame_rows (event_data_mean : Frame F) :
  let t := frame_rows event_data_mean in
  loop event_data_mean
  = Some (mkFrame (frame_columns event_data_mean
                   ∪ columns_of (row_allc t <$> t))
                  (row_allc t <$> t)).
Proof.
  cbn zeta. unfold theta2_assignment_frame.
  by rewrite theta2_assignment_rows.
Qed.

(** The count of a column over the selected events of the table after the
    loop, read on the table before it. *)
Lemma count_below_after (col : string) (columns : gset string)
    (t : list (Row F)) :
  count_below lt col cut_value_theta2
    (gamma_selection lt combo_types cut_value_gh
       (mkFrame columns (row_allc t <$> t)))
  = if decide (col ∈ columns) then
      Some (length (List.filter
              (fun r => selected r
                        && from_option (fun v => lt v cut_value_theta2) false
                             (cols (row_allc t r) !! col))
              t))
    else None.
Proof.
  unfold count_below, gamma_selection, query. cbn [frame_columns frame_rows].
  destruct (decide (col ∈ columns)); [| reflexivity]. f_equal.
  rewrite selection_keeps_base by (intros r; by eexists).
  rewrite filter_fmap_length, filter_filter_length. reflexivity.
Qed.

(** The loop over the OFF regions: it adds up the counts when every query
    succeeds, and raises when one of them does. *)
Lemma n_off_loop_some (f : nat -> option nat) (g : nat -> nat)
    (l : list nat) (a : nat) :
  (forall i, In i l -> f i = Some (g i)) ->
  foldl (fun acc i => n_off_total ← acc; n_off ← f i;
                      Some (n_off_total + n_off)%nat) (Some a) l
  = Some (foldl (fun n_off_total i => (n_off_total + g i)%nat) a l).
Proof.
  revert a. induction l as [| i l IH]; intros a H; [reflexivity |].
  cbn [foldl mbind option_bind]. rewrite (H i) by (by left).
  cbn [mbind option_bind]. apply IH. intros j Hj. apply H. by right.
Qed.

Lemma n_off_loop_raised (f : nat -> option nat) (l : list nat) :
  foldl (fun acc i => n_off_total ← acc; n_off ← f i;
                      Some (n_off_total + n_off)%nat) None l
  = None.
Proof. induction l as [| i l IH]; [reflexivity | exact IH]. Qed.

Lemma n_off_loop_none (f : nat -> option nat) (l : list nat)
    (acc : option nat) (i : nat) :
  In i l -> f i = None ->
  foldl (fun acc i => n_off_total ← acc; n_off ← f i;
                      Some (n_off_total + n_off)%nat) acc l
  = None.
Proof.
  revert acc. induction l as [| j l IH]; intros acc Hi Hf; [destruct Hi |].
  cbn [foldl]. destruct Hi as [-> | Hi].
  - rewrite Hf. destruct acc; cbn [mbind option_bind]; apply n_off_loop_raised.
  - by apply IH.
Qed.

(** The column of an OFF index that no observation of the table has is not
    written by the loop. *)
Lemma off_column_not_written (t : list (Row F)) (r : Row F) (i_off : nat) :
  i_off ∉ fst <$> offsc (obs_id r) t ->
  cols (row_allc t r) !! theta2_off_name i_off
  = cols r !! theta2_off_name i_off.
Proof.
  intros Hkey. unfold theta2_row_all, theta2_cols. cbn [cols with_cols].
  rewrite off_cols_lookup_other.
  - by rewrite lookup_insert_ne by discriminate.
  - apply Forall_forall. intros [k c] Hin Hname.
    cbn [fst] in Hname. apply theta2_off_name_inj in Hname as <-.
    apply Hkey, list_elem_of_fmap. by exists (i_off, c).
Qed.

(** X15: the counts after the theta² loop and the gamma selection, read on
    the input table.
    [n_on]: on a table with at least one row it is the number of events
    that pass the selection and whose squared separation from the ON
    coordinate is below the cut; on a table without rows and without a
    [theta2_on] column the loop creates no column and the query raises.
    [n_off_total], for an input without [theta2_off] columns and OFF indices
    that are distinct within each observation: when every index
    [1 .. n_regions_off] is returned for some observation of the table, it
    is the sum over these indices of the number of selected events whose
    observation has an OFF coordinate of the index at a squared separation
    below the cut; when one of these indices is returned for no observation,
    its column does not exist and the query raises. *)
Theorem counts_after_theta2_assignment (event_data_mean : Frame F) :
  let t := frame_rows event_data_mean in
  exists after : Frame F,
    loop event_data_mean = Some after /\
    let event_list := gamma_selection lt combo_types cut_value_gh after in
    (t <> [] ->
     n_on_of lt cut_value_theta2 event_list
     = Some (length (List.filter
                (fun r => selected r
                          && lt (th2c on_coord (coord_of r)) cut_value_theta2)
                t))) /\
    (t = [] -> "theta2_on" ∉ frame_columns event_data_mean ->
     n_on_of lt cut_value_theta2 event_list = None) /\
    ((forall i_off, theta2_off_name i_off ∉ frame_columns event_data_mean) ->
     (forall r, In r t ->
        NoDup (fst <$> offsc (obs_id r) t) /\
        forall i_off, cols r !! theta2_off_name i_off = None) ->
     ((forall i_off, 1 <= i_off <= n_regions_off ->
         exists r, In r t /\ i_off ∈ fst <$> offsc (obs_id r) t) ->
      n_off_total_of lt n_regions_off cut_value_theta2 event_list
      = Some (foldl (fun n_off_total i_off =>
                (n_off_total
                 + length (List.filter
                     (fun r =>
                        selected r
                        && from_option
                             (fun off_coord =>
                                lt (th2c off_coord (coord_of r))
                                   cut_value_theta2)
                             false
                             ((list_to_map (offsc (obs_id r) t)
                               : gmap nat (SkyCoord F)) !! (i_off + 1)%nat))
                     t))%nat)
             0%nat (seq 0 n_regions_off))) /\
     (forall i_off, 1 <= i_off <= n_regions_off ->
        (forall r, In r t -> i_off ∉ fst <$> offsc (obs_id r) t) ->
        n_off_total_of lt n_regions_off cut_value_theta2 event_list = None)).
Proof.
  cbn zeta. set (t := frame_rows event_data_mean).
  set (columns := frame_columns event_data_mean).
  exists (mkFrame (columns ∪ columns_of (row_allc t <$> t)) (row_allc t <$> t)).
  split; [apply theta2_assignment_frame_rows |].
  assert (Hon : forall r, cols (row_allc t r) !! "theta2_on"
                          = Some (th2c on_coord (coord_of r))).
  { intros r. unfold theta2_row_all, theta2_cols. cbn [cols with_cols].
    rewrite off_cols_lookup_other by apply theta2_on_not_off.
    by rewrite lookup_insert_eq. }
  split; [| split].
  - (* n_on, at least one row *)
    intros Hrows. unfold n_on_of. rewrite count_below_after.
    rewrite decide_True.
    + f_equal. apply filter_ext_length. intros r _. by rewrite Hon.
    + apply elem_of_union. right. apply elem_of_columns_of.
      assert (Hrow : exists r, r ∈ t).
      { revert Hrows. generalize t. intros [| r l] Hl; [done |].
        exists r. apply list_elem_of_here. }
      destruct Hrow as [r Hr]. exists (row_allc t r). split.
      * apply list_elem_of_fmap. by exists r.
      * by rewrite Hon.
  - (* n_on, no row *)
    intros Hrows Hcol. unfold n_on_of. rewrite count_below_after.
    rewrite decide_False; [reflexivity |].
    rewrite elem_of_union, elem_of_columns_of.
    intros [Hc | (r & Hr & _)]; [by apply Hcol |].
    rewrite Hrows in Hr. by apply elem_of_nil in Hr.
  - intros Hcols Hfresh.
    assert (Hindex : forall i_off,
      theta2_off_name i_off ∈ columns ∪ columns_of (row_allc t <$> t)
      <-> exists r, In r t /\ i_off ∈ fst <$> offsc (obs_id r) t).
    { intros i_off. rewrite elem_of_union, elem_of_columns_of. split.
      - intros [Hc | (r' & Hr' & Hsome)]; [by apply Hcols in Hc |].
        apply list_elem_of_fmap in Hr' as (r & -> & Hr).
        exists r. split; [by apply list_elem_of_In |].
        destruct (decide (i_off ∈ fst <$> offsc (obs_id r) t)) as [Hk | Hk];
          [exact Hk |].
        rewrite off_column_not_written in Hsome by exact Hk.
        apply list_elem_of_In in Hr.
        destruct (Hfresh r Hr) as [_ Hnone]. rewrite Hnone in Hsome.
        by destruct Hsome.
      - intros (r & Hr & Hk). right. exists (row_allc t r). split.
        + apply list_elem_of_fmap. exists r. split; [done |].
          by apply list_elem_of_In.
        + destruct (Hfresh r Hr) as [Hnd _].
          apply list_elem_of_fmap in Hk as ([k c] & -> & Hin). cbn [fst].
          unfold theta2_row_all, theta2_cols. cbn [cols with_cols].
          by rewrite (off_cols_lookup_key separation square _ _ _ _ c Hnd Hin). }
    split.
    + (* every OFF index has its column *)
      intros Hall. unfold n_off_total_of. apply n_off_loop_some.
      intros i_off Hi. apply in_seq in Hi. rewrite count_below_after.
      rewrite decide_True by (apply Hindex, Hall; lia).
      f_equal. apply filter_ext_length. intros r Hr. f_equal.
      destruct (Hfresh r Hr) as [Hnd Hnone].
      destruct ((list_to_map (offsc (obs_id r) t)
                 : gmap nat (SkyCoord F)) !! (i_off + 1)%nat)
        as [off_coord |] eqn:Hkey.
      * apply elem_of_list_to_map in Hkey; [| exact Hnd].
        unfold theta2_row_all, theta2_cols. cbn [cols with_cols].
        by rewrite (off_cols_lookup_key separation square _ _ _ _ off_coord
                      Hnd Hkey).
      * rewrite off_column_not_written; [by rewrite Hnone |].
        intros Hk. apply list_elem_of_fmap in Hk as ([k c] & Hkc & Hin).
        cbn [fst] in Hkc. subst k.
        apply elem_of_list_to_map in Hin; [| exact Hnd]. congruence.
    + (* an OFF index without column *)
      intros i_off Hi Hnever. unfold n_off_total_of.
      apply (n_off_loop_none _ _ _ (i_off - 1)).
      * apply in_seq. lia.
      * replace (i_off - 1 + 1) with i_off by lia.
        rewrite count_below_after. rewrite decide_False; [reflexivity |].
        rewrite Hindex. intros (r & Hr & Hk). by apply (Hnever r Hr).
Qed.

End Theta2Counts.

Lemma counts_after_theta2_assignment_witness :
  (exists after : Frame Z,
     theta2_assignment_frame Toy.separation Toy.square Toy.mean
       Toy.numbered_off_coordinates Toy.on_coord 3 (mkFrame ∅ Toy.table)
     = Some after /\
     n_off_total_of Z.ltb 3 10%Z (gamma_selection Z.ltb [3%Z] 0%Z after)
     = Some 3%nat) /\
  (exists after : Frame Z,
     theta2_assignment_frame Toy.separation Toy.square Toy.mean
       Toy.numbered_off_coordinates Toy.on_coord 3 (mkFrame ∅ [])
     = Some after /\
     n_on_of Z.ltb 10%Z (gamma_selection Z.ltb [3%Z] 0%Z after) = None).
Proof.
  split.
  - destruct (counts_after_theta2_assignment Z.ltb Toy.separation Toy.square
                Toy.mean Toy.numbered_off_coordinates Toy.on_coord 3
                [3%Z] 0%Z 10%Z (mkFrame ∅ Toy.table))
      as (after & Hrun & _ & _ & Hoff).
    exists after. split; [exact Hrun |].
    destruct Hoff as [Hsum _].
    + intros i_off. apply not_elem_of_empty.
    + intros r Hr. split.
      * destruct Hr as [<- | [<- | [<- | []]]];
          apply (bool_decide_unpack _); by vm_compute.
      * intros i_off.
        destruct Hr as [<- | [<- | [<- | []]]]; apply lookup_empty.
    + rewrite Hsum; [by vm_compute |].
      intros i_off Hi. exists (Toy.row 1 1 83 22). split; [by left |].
      assert (Hcases : i_off = 1 \/ i_off = 2 \/ i_off = 3) by lia.
      destruct Hcases as [-> | [-> | ->]];
        apply (bool_decide_unpack _); by vm_compute.
  - destruct (counts_after_theta2_assignment Z.ltb Toy.separation Toy.square
                Toy.mean Toy.numbered_off_coordinates Toy.on_coord 3
                [3%Z] 0%Z 10%Z (mkFrame ∅ []))
      as (after & Hrun & _ & Hnone & _).
    exists after. split; [exact Hrun |].
    apply Hnone; [reflexivity | apply not_elem_of_empty].
Defined.
